(** * construct-cache-fixer: the asset pipeline of [main.py] in Rocq

    A shallow embedding of [src/main.py] and of the logger construction of
    [src/construct_cache_fixer/logging/__init__.py], with the properties of
    the specification stated and proved over it.

    Conventions of the embedding.
    - A Python [str] is a [list ascii]: one element per character.  The
      characters are the code points U+0000..U+00FF; [lit] writes a
      literal.
    - A [Path] is the list of its components ([PurePath.parts]).
    - The file system is a finite map from paths to nodes: regular files
      that hold text, regular files that hold other bytes, and
      directories.  A file's text is what [read()] returns and what
      [write()] receives; the codec and the newline translation of the
      text layer lie below this model, but for the one fact that bytes
      which are no UTF-8 cannot be read as text.
    - Effects are explicit: every operation takes the file system and
      returns the new one, an exception is a value of [exn], and the
      operations that touch the disk record an [event]. *)

From Stdlib Require Import Ascii String List ZArith Lia Bool.
From stdpp Require Import base gmap strings list fin_maps.

(* ===================================================================== *)
(** * Text *)
(* ===================================================================== *)

Abbreviation str := (list ascii).

Definition lit (s : string) : str := list_ascii_of_string s.

(** [sub] occurs in [s] as a contiguous substring ([sub in s]). *)
Definition occurs (sub s : str) : Prop := ∃ l r, s = l ++ sub ++ r.

(** [s.startswith(p)] *)
Fixpoint startswith (p s : str) : bool :=
  match p, s with
  | [], _ => true
  | a :: p', b :: s' => bool_decide (a = b) && startswith p' s'
  | _ :: _, [] => false
  end.

(** [s.startswith(sub, i)]: [sub] occurs in [s] at index [i]. *)
Definition occurs_at (i : nat) (sub s : str) : bool :=
  bool_decide (i ≤ length s) && startswith sub (drop i s).

(** [s.endswith(p)] *)
Definition endswith (p s : str) : bool := startswith (reverse p) (reverse s).

(** [s.rfind(c)] for a one-character needle: the index of its last
    occurrence ([None] stands for Python's -1). *)
Fixpoint rfind (c : ascii) (s : str) : option nat :=
  match s with
  | [] => None
  | a :: s' =>
      match rfind c s' with
      | Some i => Some (S i)
      | None => if bool_decide (a = c) then Some 0 else None
      end
  end.

(** [sep.join(parts)] *)
Fixpoint join (sep : str) (parts : list str) : str :=
  match parts with
  | [] => []
  | [p] => p
  | p :: rest => p ++ sep ++ join sep rest
  end.

(** [s.replace(old, new)]: every occurrence of [old], found left to right
    and without overlap, becomes [new].  [skip] counts the characters of
    the occurrence just replaced that are still to be passed over.  For an
    empty [old] Python puts [new] before every character and at the end. *)
Fixpoint replace_from (old new : str) (skip : nat) (s : str) : str :=
  match s with
  | [] => []
  | c :: s' =>
      match skip with
      | S k => replace_from old new k s'
      | O =>
          if startswith old s
          then new ++ replace_from old new (length old - 1) s'
          else c :: replace_from old new 0 s'
      end
  end.

Definition str_replace (s old new : str) : str :=
  match old with
  | [] => new ++ flat_map (λ c, c :: new) s
  | _ :: _ => replace_from old new 0 s
  end.

(** [file.readlines()]: the text cut after every newline, each line keeping
    its newline; the last line has none when the text does not end in one. *)
Fixpoint readlines (s : str) : list str :=
  match s with
  | [] => []
  | c :: s' =>
      if bool_decide (c = "010"%char) then [c] :: readlines s'
      else match readlines s' with
           | [] => [[c]]
           | l :: ls => (c :: l) :: ls
           end
  end.

(** Every occurrence of [old] replaced by [new], as a relation between
    the text before and the text after: the leftmost occurrence is
    replaced, and then every occurrence of what follows it. *)
Inductive replaced (old new : str) : str → str → Prop :=
  | replaced_none s :
      ¬ occurs old s → replaced old new s s
  | replaced_first p rest rest' :
      (∀ l r, p ++ old ++ rest = l ++ old ++ r → length p ≤ length l) →
      replaced old new rest rest' →
      replaced old new (p ++ old ++ rest) (p ++ new ++ rest').

(** ASCII lower case of a character, used to speak of a name written in
    another letter case. *)
Definition lower (c : ascii) : ascii :=
  let n := nat_of_ascii c in
  if (65 <=? n) && (n <=? 90) then ascii_of_nat (n + 32) else c.

(** [u] and [v] are the same text up to letter case. *)
Definition same_ignoring_case (u v : str) : Prop := lower <$> u = lower <$> v.

(** [str.isprintable] of a character below U+0100: the ASCII characters
    from the space to the tilde, and the Latin-1 characters from U+00A1 on
    but the soft hyphen. *)
Definition isprintable (c : ascii) : bool :=
  let n := nat_of_ascii c in
  ((32 <=? n) && (n <=? 126)) || ((161 <=? n) && negb (n =? 173)).

Definition hexdigit (n : nat) : ascii :=
  nth n (lit "0123456789abcdef") "0"%char.

(** One character of [repr(s)], between quotes [quote]. *)
Definition repr_char (quote c : ascii) : str :=
  if bool_decide (c = quote) || bool_decide (c = "\"%char) then ["\"%char; c]
  else if bool_decide (c = "009"%char) then lit "\t"
  else if bool_decide (c = "010"%char) then lit "\n"
  else if bool_decide (c = "013"%char) then lit "\r"
  else if isprintable c then [c]
  else lit "\x" ++ [hexdigit (nat_of_ascii c / 16); hexdigit (nat_of_ascii c mod 16)].

(** [repr(s)], which [%r] formats with: single quotes, unless [s] holds a
    single quote and no double quote. *)
Definition repr (s : str) : str :=
  let quote := if bool_decide ("039"%char ∈ s) && negb (bool_decide ("034"%char ∈ s))
               then "034"%char else "039"%char in
  [quote] ++ flat_map (repr_char quote) s ++ [quote].

(* ===================================================================== *)
(** * The [re] module, for the patterns that [main.py] compiles *)
(* ===================================================================== *)

Module re.

(** [\w] on a [str] pattern is the Unicode word class: alphanumeric
    characters and the underscore.  Below U+0100 these are the ASCII
    letters and digits, [_], and the Latin-1 letters and numerics
    (ª ² ³ µ ¹ º ¼ ½ ¾ À-Ö Ø-ö ø-ÿ). *)
Definition is_word (c : ascii) : bool :=
  let n := nat_of_ascii c in
  ((48 <=? n) && (n <=? 57)) || ((65 <=? n) && (n <=? 90)) || (n =? 95)
  || ((97 <=? n) && (n <=? 122))
  || (n =? 170) || (n =? 178) || (n =? 179) || (n =? 181) || (n =? 185)
  || (n =? 186) || ((188 <=? n) && (n <=? 190))
  || ((192 <=? n) && (n <=? 214)) || ((216 <=? n) && (n <=? 246))
  || (248 <=? n).

(** ASCII letters and digits: after a backslash they start an escape
    sequence of the pattern language. *)
Definition is_ascii_alnum (c : ascii) : bool :=
  let n := nat_of_ascii c in
  ((48 <=? n) && (n <=? 57)) || ((65 <=? n) && (n <=? 90))
  || ((97 <=? n) && (n <=? 122)).

(** [_special_chars_map] of [re.escape]:
    the keys are [b'()[]{}?*+-|^$\\.&~# \t\n\r\v\f']. *)
Definition _special_chars : str :=
  lit "()[]{}?*+-|^$\.&~# "
  ++ ["009"%char; "010"%char; "013"%char; "011"%char; "012"%char].

(** [re.escape(pattern)]: a backslash before every special character. *)
Definition escape (pattern : str) : str :=
  flat_map (λ c, if bool_decide (c ∈ _special_chars)
                 then ["\"%char; c] else [c]) pattern.

(** The parsed pattern.  The patterns of [main.py] are sequences of literal
    characters and [\W]; the parser refuses everything else. *)
Inductive node : Type :=
  | NOT_WORD                (* \W *)
  | LITERAL (c : ascii).    (* one character, compared exactly *)

(** [SPECIAL_CHARS] of the pattern parser: the characters that are not
    literals when they stand unescaped. *)
Definition SPECIAL_CHARS : str := lit ".\[{()*+?^$|".

(** [re.compile(p)], on the fragment above.  [None]: the pattern uses a
    construct outside the fragment, or is malformed. *)
Fixpoint compile (p : str) : option (list node) :=
  match p with
  | [] => Some []
  | c :: rest =>
      if bool_decide (c = "\"%char) then
        match rest with
        | [] => None
        | e :: rest' =>
            if bool_decide (e = "W"%char) then cons NOT_WORD <$> compile rest'
            else if is_ascii_alnum e then None
            else cons (LITERAL e) <$> compile rest'
        end
      else if bool_decide (c ∈ SPECIAL_CHARS) then None
      else cons (LITERAL c) <$> compile rest
  end.

Definition node_matches (n : node) (c : ascii) : bool :=
  match n with
  | NOT_WORD => negb (is_word c)
  | LITERAL d => bool_decide (c = d)
  end.

(** The pattern matches a prefix of [s] ([Pattern.match]). *)
Fixpoint match_ (ns : list node) (s : str) : bool :=
  match ns, s with
  | [], _ => true
  | n :: ns', c :: s' => node_matches n c && match_ ns' s'
  | _ :: _, [] => false
  end.

(** [Pattern.search(s)] as a truth value: the pattern matches at some
    position of [s]. *)
Fixpoint search (ns : list node) (s : str) : bool :=
  match_ ns s
  || match s with
     | [] => false
     | _ :: s' => search ns s'
     end.

End re.

(** [name] stands in [line] with a non-word character before it and a
    non-word character after it. *)
Definition whole_word_in (name line : str) : Prop :=
  ∃ l a b r, line = l ++ a :: name ++ b :: r
             ∧ re.is_word a = false ∧ re.is_word b = false.

(** [name] stands in [s] as a token of its own: what precedes it, if
    anything, ends in a non-word character, and what follows it, if
    anything, starts with one. *)
Definition standalone_in (name s : str) : Prop :=
  ∃ l r, s = l ++ name ++ r
         ∧ (∀ l' a, l = l' ++ [a] → re.is_word a = false)
         ∧ (∀ b r', r = b :: r' → re.is_word b = false).

(* ===================================================================== *)
(** * [pathlib] *)
(* ===================================================================== *)

(** A path is the list of its components; the last one is its name. *)
Abbreviation Path := (list str).

Module pathlib.

(** [p.name] *)
Definition name (p : Path) : str := default [] (last p).

(** [p.parent] *)
Definition parent (p : Path) : Path := removelast p.

(** [p / child] *)
Definition joinpath (p : Path) (child : str) : Path := p ++ [child].

(** [p.suffix]: the name from its last dot on, when that dot is neither
    the first nor the last character of the name. *)
Definition suffix (p : Path) : str :=
  let nm := name p in
  match rfind "."%char nm with
  | Some i => if (0 <? i) && (i <? length nm - 1) then drop i nm else []
  | None => []
  end.

(** [p.stem]: the name without its suffix. *)
Definition stem (p : Path) : str :=
  let nm := name p in
  match rfind "."%char nm with
  | Some i => if (0 <? i) && (i <? length nm - 1) then take i nm else nm
  | None => nm
  end.

(** [p.with_name(nm)]: the same directory, another name.  (Python raises
    [ValueError] for a path without a name and for a name that is empty or
    holds a separator; components hold no separator here and the one caller
    passes a name that contains an underscore.) *)
Definition with_name (p : Path) (nm : str) : Path := removelast p ++ [nm].

(** [p.with_stem(st)] *)
Definition with_stem (p : Path) (st : str) : Path := with_name p (st ++ suffix p).

(** [str(p)], POSIX flavour; the first component of an absolute path is
    the root [/]. *)
Definition to_str (p : Path) : str :=
  match p with
  | [] => lit "."
  | first :: rest =>
      if bool_decide (first = lit "/") then first ++ join (lit "/") rest
      else join (lit "/") p
  end.

(** [root] is a proper ancestor of [p]. *)
Fixpoint is_under (root p : Path) : bool :=
  match root, p with
  | [], _ :: _ => true
  | a :: root', b :: p' => bool_decide (a = b) && is_under root' p'
  | _, [] => false
  end.

End pathlib.

(* ===================================================================== *)
(** * The file system *)
(* ===================================================================== *)

(** A regular file is a [File] when its bytes are the UTF-8 encoding of a
    text, which [read()] then returns, and a [Blob] when they are not (an
    image, an archive): reading a [Blob] as text fails.  A directory is a
    node of its own; a disk lists every directory that stands above one of
    its nodes, as the disks that [makedirs] and [extractall] build do. *)
Inductive fsnode : Type :=
  | File (text : str)
  | Blob (data : str)
  | Dir.

#[global] Instance fsnode_eq_dec : EqDecision fsnode.
Proof. solve_decision. Defined.

Abbreviation FS := (gmap Path fsnode).

(** [errno] values of the [OSError]s without a class of their own. *)
Definition EINVAL : nat := 22.
Definition ENOTEMPTY : nat := 39.

(** The exceptions that the modelled code raises. *)
Inductive exn : Type :=
  | FileNotFoundError (message : str)
  | IsADirectoryError (p : Path)
  | NotADirectoryError (p : Path)
  | FileExistsError (p : Path)
  | OSError (errno : nat) (src dst : Path)
  | UnicodeDecodeError
  | BadZipFile (p : Path)
  | ReError (pattern : str)
  | ValueError (message : str).

(** Sequencing of fallible steps: the first exception ends the
    computation. *)
#[global] Instance exn_ret : MRet (sum exn) := λ A a, inr a.
#[global] Instance exn_bind : MBind (sum exn) :=
  λ A B k m, match m with inl e => inl e | inr a => k a end.

(** What an operation does to the disk. *)
Inductive event : Type :=
  | EvWrite (p : Path)             (* a file opened for writing and overwritten *)
  | EvRename (src dst : Path)      (* os.rename *)
  | EvExtractAll (archive dst : Path).  (* ZipFile.extractall *)

Module os.

(** [p.exists()] *)
Definition path_exists (fs : FS) (p : Path) : bool := bool_decide (is_Some (fs !! p)).

(** [open(p, 'r', encoding='utf-8').read()] *)
Definition read_text (fs : FS) (p : Path) : exn + str :=
  match fs !! p with
  | Some (File text) => inr text
  | Some (Blob _) => inl UnicodeDecodeError
  | Some Dir => inl (IsADirectoryError p)
  | None => inl (FileNotFoundError (pathlib.to_str p))
  end.

(** [open(p, 'rb').read()]: the content as it is. *)
Definition read_bytes (fs : FS) (p : Path) : exn + str :=
  match fs !! p with
  | Some (File content) | Some (Blob content) => inr content
  | Some Dir => inl (IsADirectoryError p)
  | None => inl (FileNotFoundError (pathlib.to_str p))
  end.

(** [open(p, 'w').write(text)]: the file is truncated and rewritten whole. *)
Definition write_text (fs : FS) (p : Path) (text : str) : exn + FS :=
  match fs !! p with
  | Some Dir => inl (IsADirectoryError p)
  | _ => inr (<[p := File text]> fs)
  end.

(** [p] is [root] or lies below it. *)
Definition within (root p : Path) : bool :=
  bool_decide (p = root) || pathlib.is_under root p.

(** Nothing lies below [d]. *)
Definition is_empty_dir (fs : FS) (d : Path) : bool :=
  bool_decide (map_Forall (λ p _, pathlib.is_under d p = false) fs).

(** The path that a node at [p] has once the directory [src] has become
    [dst]. *)
Definition reroot (src dst p : Path) : Path :=
  if within src p then dst ++ drop (length src) p else p.

(** The directory [src], with all that lies below it, moved to [dst]. *)
Definition move_tree (fs : FS) (src dst : Path) : FS :=
  list_to_map ((λ pn : Path * fsnode, (reroot src dst pn.1, pn.2))
                 <$> map_to_list fs).

(** [src.rename(dst)], which is [os.rename] (POSIX [rename]).  Renaming a
    path to itself does nothing, and no path can take the place of a
    directory above it.  A regular file replaces a regular file at [dst];
    a directory at [dst] is an error.  A directory moves with all that
    lies below it; it replaces an empty directory at [dst]; a regular file
    at [dst], a directory at [dst] that is not empty, and a [dst] inside
    [src] are errors.  The directory that holds [dst] is taken to be
    there, as it is for the sibling of [src] that [rename_asset] gives. *)
Definition rename (fs : FS) (src dst : Path) : exn + FS :=
  match fs !! src with
  | None => inl (FileNotFoundError (pathlib.to_str src))
  | Some node =>
      if bool_decide (dst = src) then inr fs
      else if pathlib.is_under dst src then inl (OSError ENOTEMPTY src dst)
      else
        match node with
        | Dir =>
            if pathlib.is_under src dst then inl (OSError EINVAL src dst)
            else
              match fs !! dst with
              | Some (File _) | Some (Blob _) => inl (NotADirectoryError dst)
              | _ =>
                  if is_empty_dir fs dst
                  then inr (move_tree (delete dst fs) src dst)
                  else inl (OSError ENOTEMPTY src dst)
              end
        | _ =>
            match fs !! dst with
            | Some Dir => inl (IsADirectoryError dst)
            | _ => inr (<[dst := node]> (delete src fs))
            end
        end
  end.

(** The directories above the path [pre / rest], from [pre] downwards, as
    [os.makedirs(os.path.dirname(pre / rest))] leaves them: a directory
    that is missing is created.  A regular file on the way is an error for
    whoever goes through it next ([mkdir], or the [open] of the target),
    with the path that was asked for below the file; the directories
    created until then stay. *)
Fixpoint makedirs (fs : FS) (pre rest : Path) : FS * (exn + ()) :=
  match rest with
  | [] => (fs, inr ())
  | d :: rest' =>
      match rest' with
      | [] => (fs, inr ())
      | d' :: _ =>
          let q := pre ++ [d] in
          match fs !! q with
          | Some Dir => makedirs fs q rest'
          | None => makedirs (<[q := Dir]> fs) q rest'
          | Some _ => (fs, inl (NotADirectoryError (q ++ [d'])))
          end
      end
  end.

(** [root.rglob(pattern)] for a pattern that is a star and [ext]: the
    paths below [root], at any depth, whose name ends in [ext], regular
    files and directories alike, in the order in which the file system
    lists them (here the enumeration order of the map; no property depends
    on it). *)
Definition rglob (fs : FS) (root : Path) (ext : str) : list Path :=
  (filter (λ pn : Path * fsnode,
             pathlib.is_under root pn.1
             && endswith ext (pathlib.name pn.1) = true)
          (map_to_list fs)).*1.

End os.

(* ===================================================================== *)
(** * [zipfile] *)
(* ===================================================================== *)

Module zipfile.

(** The members of an archive, in archive order: the name of a member,
    cut at its slashes, and what it holds; [Dir] is a directory entry (a
    name that ends in a slash). *)
Definition archive : Type := list (Path * fsnode).

(** The parts of a member name that [_extract_member] drops: the empty
    ones (a leading, a doubled or a trailing slash), [.] and [..]. *)
Definition sanitize (arcname : Path) : Path :=
  filter (λ x : str, x ≠ [] ∧ x ≠ lit "." ∧ x ≠ lit "..") arcname.

(** [ZipFile._extract_member]: the target is [path] followed by the
    sanitized name; the directories above it are created as needed; a
    directory entry becomes a directory unless one is there, and any other
    member is written to the target, in place of a regular file that is
    there. *)
Definition extract_member (fs : FS) (path : Path) (member : Path * fsnode)
    : FS * (exn + ()) :=
  let target := path ++ sanitize member.1 in
  let '(fs1, r) := os.makedirs fs [] target in
  match r with
  | inl e => (fs1, inl e)
  | inr _ =>
      match member.2, fs1 !! target with
      | Dir, Some Dir => (fs1, inr ())
      | Dir, Some _ => (fs1, inl (FileExistsError target))
      | Dir, None => (<[target := Dir]> fs1, inr ())
      | _, Some Dir => (fs1, inl (IsADirectoryError target))
      | content, _ => (<[target := content]> fs1, inr ())
      end
  end.

(** [ZipFile.extractall(path)]: the members one after the other; what was
    extracted before a failing member stays on the disk.  Nothing is
    created for an archive without members. *)
Fixpoint extractall (fs : FS) (path : Path) (members : archive) : FS * (exn + ()) :=
  match members with
  | [] => (fs, inr ())
  | m :: rest =>
      match extract_member fs path m with
      | (fs1, inl e) => (fs1, inl e)
      | (fs1, inr _) => extractall fs1 path rest
      end
  end.

End zipfile.

(* ===================================================================== *)
(** * [construct_cache_fixer.logging] and the [logging] it wraps *)
(* ===================================================================== *)

(** [from construct_cache_fixer import logging] finds the package
    [logging/__init__.py]: a package comes before the module [logging.py]
    of the same name, which is never imported. *)

Module logging.

Local Open Scope Z_scope.

Definition NOTSET : Z := 0.
Definition DEBUG : Z := 10.
Definition INFO : Z := 20.
Definition WARNING : Z := 30.
Definition ERROR : Z := 40.
Definition CRITICAL : Z := 50.

(** A level as a caller passes it ([int | str]). *)
Inductive level_arg : Type :=
  | LevelInt (n : Z)
  | LevelName (s : str).

(** The standard library's table of level names. *)
Definition _nameToLevel : gmap str Z :=
  list_to_map
    [(lit "CRITICAL", CRITICAL); (lit "FATAL", CRITICAL); (lit "ERROR", ERROR);
     (lit "WARN", WARNING); (lit "WARNING", WARNING); (lit "INFO", INFO);
     (lit "DEBUG", DEBUG); (lit "NOTSET", NOTSET)].

Definition _checkLevel (level : level_arg) : exn + Z :=
  match level with
  | LevelInt n => inr n
  | LevelName s =>
      match _nameToLevel !! s with
      | Some rv => inr rv
      | None => inl (ValueError (lit "Unknown level: " ++ repr s))
      end
  end.

(** Python's truth value of a level: [0] and the empty string are false. *)
Definition truthy (level : level_arg) : bool :=
  match level with
  | LevelInt n => negb (n =? 0)
  | LevelName s => negb (bool_decide (s = []))
  end.

(** [if not level: level = dflt], for an optional level. *)
Definition if_not (level : option level_arg) (dflt : level_arg) : level_arg :=
  match level with
  | Some l => if truthy l then l else dflt
  | None => dflt
  end.

(** The part of a logger that decides what it emits.  A logger built by
    calling its class has no parent. *)
Record Logger : Type := mkLogger {
  name : str;
  level : Z
}.

(** [ColoredLogger.__init__], which ends in [Logger.__init__]. *)
Definition ColoredLogger (name : str) (level : option level_arg) : exn + Logger :=
  let level := if_not level (LevelInt INFO) in
  rv ← _checkLevel level;
  mret (mkLogger name rv).

(** [__default_level__ = os.environ.get('LOGGING_LEVEL', INFO)], evaluated
    when the package is imported. *)
Definition __default_level__ (environ : gmap str str) : level_arg :=
  match environ !! lit "LOGGING_LEVEL" with
  | Some v => LevelName v
  | None => LevelInt INFO
  end.

(** [getLogger(name, level)]; [caller] is the name of the calling module,
    which the function reads off the stack when it is given no name. *)
Definition getLogger (environ : gmap str str) (caller : str)
    (name : option str) (level : option level_arg) : exn + Logger :=
  let name := match name with
              | Some n => if bool_decide (n = []) then caller else n
              | None => caller
              end in
  let level := if_not level (__default_level__ environ) in
  ColoredLogger name (Some level).

(** [Logger.setLevel] *)
Definition setLevel (logger : Logger) (level : level_arg) : exn + Logger :=
  rv ← _checkLevel level;
  mret (mkLogger (name logger) rv).

(** [Logger.getEffectiveLevel]: the logger's own level when it is not zero;
    there is no parent to ask, and the answer is then [NOTSET]. *)
Definition getEffectiveLevel (logger : Logger) : Z :=
  if negb (level logger =? 0) then level logger else NOTSET.

(** [Logger.isEnabledFor]: is a record of this severity emitted?
    ([manager.disable] keeps its initial value 0.) *)
Definition isEnabledFor (logger : Logger) (severity : Z) : bool :=
  if 0 >=? severity then false
  else severity >=? getEffectiveLevel logger.

End logging.

(* ===================================================================== *)
(** * [main.py] *)
(* ===================================================================== *)

(** What a call leaves behind: the disk, what was done to it, and either
    the value returned or the exception raised.  The disk is kept when an
    exception is raised: nothing is rolled back. *)
Record outcome (A : Type) : Type := Outcome {
  disk : FS;
  trace : list event;
  result : exn + A
}.
Arguments Outcome {A} _ _ _.
Arguments disk {A} _.
Arguments trace {A} _.
Arguments result {A} _.

Module main.

(** [_logger = logging.getLogger()] and [_logger.setLevel(logging.INFO)]:
    the logger of the core, as the import of [main.py] leaves it. *)
Definition _logger (environ : gmap str str) : exn + logging.Logger :=
  logger ← logging.getLogger environ (lit "__main__") None None;
  logging.setLevel logger (logging.LevelInt logging.INFO).

(** The patterns are [*.css], ..., [*.webm]: a name matches when it ends in
    the extension. *)
Definition ASSETS_PATTERNS : list str :=
  [lit ".css"; lit ".js"; lit ".json"; lit ".png"; lit ".ttf"; lit ".wasm";
   lit ".webm"].

Definition ascii_letters : str :=
  lit "abcdefghijklmnopqrstuvwxyzABCDEFGHIJKLMNOPQRSTUVWXYZ".

Definition digits : str := lit "0123456789".

(** [random.choices(population, k=k)]: [k] draws with replacement, each
    [population[floor(random() * n)]], an index below [n = len(population)].
    The source of randomness is a stream [rnd] of natural numbers; a draw
    is reduced below [n]. *)
Definition choices (rnd : nat → nat) (population : str) (k : nat) : str :=
  (λ i, nth (rnd i mod length population) population "000"%char) <$> seq 0 k.

Definition generate_random_string (rnd : nat → nat) (length : nat) : str :=
  choices rnd (ascii_letters ++ digits) length.

Definition rename_asset (rnd : nat → nat) (asset : Path) : Path :=
  let suffix := generate_random_string rnd 8 in
  pathlib.with_stem asset (pathlib.stem asset ++ lit "_" ++ suffix).

(** The local variable [asset_name] of [search_for_asset_uses]. *)
Definition asset_name (asset : Path) : str :=
  if bool_decide (pathlib.suffix asset = lit ".webm")
  then pathlib.stem asset else pathlib.name asset.

(** The local variable [old_asset_name] of [replace_asset_uses]. *)
Definition old_asset_name (old_asset : Path) : str :=
  if bool_decide (pathlib.suffix old_asset = lit ".webm")
  then pathlib.stem old_asset else pathlib.name old_asset.

(** The local variable [new_asset_name] of [replace_asset_uses]. *)
Definition new_asset_name (new_asset : Path) : str :=
  if bool_decide (pathlib.suffix new_asset = lit ".webm")
  then pathlib.stem new_asset else pathlib.name new_asset.

(** The local variable [asset_regex] of [search_for_asset_uses], compiled
    from the pattern [\W], the escaped name, [\W]. *)
Definition asset_regex (asset_name : str) : option (list re.node) :=
  re.compile (lit "\W" ++ re.escape asset_name ++ lit "\W").

(** The local variable [source_files] of [search_for_asset_uses]. *)
Definition source_files (fs : FS) (folder_path : Path) : list Path :=
  os.rglob fs folder_path (lit ".html")
  ++ os.rglob fs folder_path (lit ".js")
  ++ os.rglob fs folder_path (lit ".json").

(** The inner loop of [search_for_asset_uses] over the lines of one file:
    does some line hold a match? *)
Definition lines_match (rx : list re.node) (text : str) : bool :=
  existsb (re.search rx) (readlines text).

Definition not_found (asset : Path) : exn :=
  FileNotFoundError
    (lit "The asset '" ++ pathlib.to_str asset
     ++ lit "' was not found in the source code.").

(** One step of the generator's loop over [source_files]: the file is
    opened and scanned; [inr true] when it is to be yielded. *)
Definition scan_file (fs : FS) (asset source_file : Path) : exn + bool :=
  match asset_regex (asset_name asset) with
  | None => inl (ReError (lit "\W" ++ re.escape (asset_name asset) ++ lit "\W"))
  | Some rx => text ← os.read_text fs source_file; mret (lines_match rx text)
  end.

(** The generator run to its end on a disk that nobody changes meanwhile
    ([list(search_for_asset_uses(folder_path, asset))]): the files it
    yields, or the exception it raises. *)
Fixpoint scan_uses (fs : FS) (asset : Path) (files : list Path)
    (found : bool) : exn + list Path :=
  match files with
  | [] => if found then inr [] else inl (not_found asset)
  | source_file :: rest =>
      hit ← scan_file fs asset source_file;
      if (hit : bool)
      then (uses ← scan_uses fs asset rest true; mret (source_file :: uses))
      else scan_uses fs asset rest found
  end.

Definition search_for_asset_uses (fs : FS) (folder_path asset : Path)
    : exn + list Path :=
  scan_uses fs asset (source_files fs folder_path) false.

Definition replace_asset_uses (fs : FS) (source_file old_asset new_asset : Path)
    : exn + FS :=
  content ← os.read_text fs source_file;
  let content := str_replace content (old_asset_name old_asset)
                             (new_asset_name new_asset) in
  os.write_text fs source_file content.

(** [for asset_use in asset_uses: replace_asset_uses(...)] of [main].
    [asset_uses] is a generator, so its body and the loop's body alternate:
    the generator scans up to its next [yield], the loop rewrites the file
    that was yielded, and the generator resumes on the disk as rewritten.
    When the files are exhausted the generator raises if it has yielded
    nothing. *)
Fixpoint rewrite_uses (asset new_asset : Path) (files : list Path)
    (found : bool) (fs : FS) (tr : list event) : outcome () :=
  match files with
  | [] => Outcome fs tr (if found then inr () else inl (not_found asset))
  | source_file :: rest =>
      match scan_file fs asset source_file with
      | inl e => Outcome fs tr (inl e)
      | inr false => rewrite_uses asset new_asset rest found fs tr
      | inr true =>
          match replace_asset_uses fs source_file asset new_asset with
          | inl e => Outcome fs tr (inl e)
          | inr fs' =>
              rewrite_uses asset new_asset rest true fs'
                           (tr ++ [EvWrite source_file])
          end
      end
  end.

(** The body of the loop [for asset in assets] of [main]: the scanner is
    created (nothing runs yet), the new name is drawn, the uses are
    rewritten as the scanner yields them, and then the asset is renamed. *)
Definition process_asset (rnd : nat → nat) (extract_path asset : Path)
    (fs : FS) : outcome () :=
  let new_asset := rename_asset rnd asset in
  let o := rewrite_uses asset new_asset (source_files fs extract_path)
                        false fs [] in
  match result o with
  | inl _ => o
  | inr _ =>
      match os.rename (disk o) asset new_asset with
      | inl e => Outcome (disk o) (trace o) (inl e)
      | inr fs' => Outcome fs' (trace o ++ [EvRename asset new_asset]) (inr ())
      end
  end.

Section Archive.

(** [ZipFile(archive_path, 'r')] reads the members out of the archive's
    bytes; the decoder is the [zipfile] library's. *)
Variable unzip : str → option zipfile.archive.

Definition open_zip (fs : FS) (archive_path : Path) : exn + zipfile.archive :=
  bytes ← os.read_bytes fs archive_path;
  match unzip bytes with
  | Some members => inr members
  | None => inl (BadZipFile archive_path)
  end.

(** The local variable [extract_path] of [extract_zip]: the sibling of the
    archive that is named after its stem. *)
Definition extract_path_of (archive_path : Path) : Path :=
  pathlib.joinpath (pathlib.parent archive_path) (pathlib.stem archive_path).

Definition extract_zip (fs : FS) (archive_path : Path) : outcome Path :=
  let extract_path := extract_path_of archive_path in
  if os.path_exists fs extract_path then Outcome fs [] (inr extract_path)
  else
    match open_zip fs archive_path with
    | inl e => Outcome fs [] (inl e)
    | inr members =>
        let '(fs', r) := zipfile.extractall fs extract_path members in
        Outcome fs' [EvExtractAll archive_path extract_path]
                (_ ← r; mret extract_path)
    end.

(** The assets of one pattern, one after the other; every asset draws its
    eight characters from the stream where the previous one stopped. *)
Fixpoint process_assets (rnd : nat → nat) (extract_path : Path)
    (assets : list Path) (fs : FS) (tr : list event)
    : outcome () * (nat → nat) :=
  match assets with
  | [] => (Outcome fs tr (inr ()), rnd)
  | asset :: rest =>
      let o := process_asset rnd extract_path asset fs in
      match result o with
      | inl e => (Outcome (disk o) (tr ++ trace o) (inl e), rnd)
      | inr _ =>
          process_assets (λ i, rnd (8 + i)) extract_path rest
                         (disk o) (tr ++ trace o)
      end
  end.

(** [identify_assets] is a generator too: the tree is searched for a
    pattern when the loop of [main] reaches that pattern, on the disk as
    the assets of the earlier patterns left it.  The walk of [rglob] is
    taken as its listing at that moment.  The library reads a directory
    when the walk comes to it, so the two part in one case: the loop
    renames a directory that is itself an asset and holds assets of the
    same pattern.  The listing then has their old paths, where the walk,
    depending on the version of the library, goes on below the new name
    or passes the directory by.  The facts about a whole run are proved
    of the loop over any list of assets below the root. *)
Fixpoint process_patterns (rnd : nat → nat) (extract_path : Path)
    (patterns : list str) (fs : FS) (tr : list event) : outcome () :=
  match patterns with
  | [] => Outcome fs tr (inr ())
  | pattern :: rest =>
      let '(o, rnd') :=
        process_assets rnd extract_path (os.rglob fs extract_path pattern)
                       fs tr in
      match result o with
      | inl _ => o
      | inr _ => process_patterns rnd' extract_path rest (disk o) (trace o)
      end
  end.

(** [main()], for the archive path given on the command line. *)
Definition main (rnd : nat → nat) (fs : FS) (archive_path : Path) : outcome () :=
  if negb (os.path_exists fs archive_path) then
    Outcome fs []
      (inl (FileNotFoundError
              (lit "The specified file '" ++ pathlib.to_str archive_path
               ++ lit "' does not exist.")))
  else
    let o := extract_zip fs archive_path in
    match result o with
    | inl e => Outcome (disk o) (trace o) (inl e)
    | inr extract_path =>
        process_patterns rnd extract_path ASSETS_PATTERNS (disk o) (trace o)
    end.

End Archive.

End main.

(* ===================================================================== *)
(** * Auxiliary definitions for the statements *)
(* ===================================================================== *)

(** The scanner yields [source_file] for [asset] on the disk [fs]. *)
Definition hit (fs : FS) (asset source_file : Path) : bool :=
  match main.scan_file fs asset source_file with
  | inr true => true
  | _ => false
  end.

(** Every path below [root] that is named like a source file is a regular
    file that holds text. *)
Definition sources_are_text (fs : FS) (root : Path) : Prop :=
  ∀ f, f ∈ main.source_files fs root → ∃ text, fs !! f = Some (File text).


(** [line] holds [name] in another letter case, and only so. *)
Definition only_in_other_case (name line : str) : Prop :=
  (∃ v, occurs v line ∧ same_ignoring_case v name)
  ∧ ∀ v, occurs v line → same_ignoring_case v name → v ≠ name.

(** How a PNG image begins: bytes that are no UTF-8. *)
Definition PNG : str := "137"%char :: lit "PNG".

(** A small extracted game: a page that refers to [x.png], the image, and
    an image that nothing refers to. *)
Definition demo_disk : FS :=
  {[ [lit "game"] := Dir;
     [lit "game"; lit "a.html"] := File (lit "<img src='x.png'>");
     [lit "game"; lit "images"] := Dir;
     [lit "game"; lit "images"; lit "x.png"] := Blob PNG;
     [lit "game"; lit "images"; lit "orphan.png"] := Blob PNG ]}.

(** A game in which the page names the image at the start of a line, and
    a script names it between quotes. *)
Definition line_start_disk : FS :=
  {[ [lit "game"] := Dir;
     [lit "game"; lit "a.html"] := File (lit "x.png is the logo");
     [lit "game"; lit "b.js"] := File (lit "load('x.png');");
     [lit "game"; lit "x.png"] := Blob PNG ]}.

(** A game with a directory that is named like a script, and a script that
    is not UTF-8. *)
Definition odd_disk : FS :=
  {[ [lit "game"] := Dir;
     [lit "game"; lit "index.html"] := File (lit "<script src='lib.js/main.js'>");
     [lit "game"; lit "lib.js"] := Dir;
     [lit "game"; lit "lib.js"; lit "main.js"] := File (lit "run();");
     [lit "game"; lit "packed.js"] := Blob ["255"%char; "254"%char] ]}.

(** The small game with a directory that is named like a data file. *)
Definition dir_source_disk : FS :=
  {[ [lit "game"] := Dir;
     [lit "game"; lit "a.html"] := File (lit "<img src='x.png'>");
     [lit "game"; lit "data.json"] := Dir;
     [lit "game"; lit "x.png"] := Blob PNG;
     [lit "game"; lit "orphan.png"] := Blob PNG ]}.

(** The small game with a script that is not UTF-8. *)
Definition blob_source_disk : FS :=
  {[ [lit "game"] := Dir;
     [lit "game"; lit "a.html"] := File (lit "<img src='x.png'>");
     [lit "game"; lit "packed.js"] := Blob ["255"%char; "254"%char];
     [lit "game"; lit "x.png"] := Blob PNG;
     [lit "game"; lit "orphan.png"] := Blob PNG ]}.

(** A decoder for two archives: one without members, and one with a page
    and the image it refers to. *)
Definition demo_unzip (bytes : str) : option zipfile.archive :=
  if bool_decide (bytes = lit "PK-empty") then Some []
  else if bool_decide (bytes = lit "PK-game") then
    Some [([lit "index.html"], File (lit "<img src='images/game.png'>"));
          ([lit "images"; lit "game.png"], Blob PNG)]
  else None.

(* ===================================================================== *)
(** * The rest of [main.py] and of the logging package *)
(* ===================================================================== *)

(** [identify_assets] run to its end on a disk that nobody changes
    meanwhile ([list(identify_assets(extract_path))]): the patterns in
    their order, and for each pattern the files that it matches. *)
Definition identify_assets (fs : FS) (extract_path : Path) : list Path :=
  main.ASSETS_PATTERNS ≫= os.rglob fs extract_path.

Module tty.

(** The values of [TextColor] that the formatter uses. *)
Definition RED : str := lit "91".
Definition DARK_RED : str := lit "31".
Definition DARK_YELLOW : str := lit "33".
Definition DARK_GREEN : str := lit "32".
Definition LIGHT_BLUE : str := lit "94".
Definition GRAY : str := lit "90".

(** Python's truth value of an optional string. *)
Definition given (arg : option str) : list str :=
  match arg with
  | Some (c :: s) => [c :: s]
  | _ => []
  end.

(** [pretty(text, text_color, text_format, background_color)]; on Windows
    the module replaces it by [plain], which returns the text. *)
Definition pretty (windows : bool) (text : str)
    (text_color text_format background_color : option str) : str :=
  if windows then text
  else
    let args := given text_color ++ given text_format ++ given background_color in
    let attrs := join (lit ";") args in
    ["027"%char] ++ lit "[" ++ attrs ++ lit "m" ++ text ++ ["027"%char] ++ lit "[0m".

End tty.

Module colored_logging.

Local Open Scope Z_scope.

Definition __LEVEL_COLORS__ : gmap Z str :=
  list_to_map
    [(50, tty.RED); (40, tty.DARK_RED); (30, tty.DARK_YELLOW);
     (20, tty.DARK_GREEN); (10, tty.LIGHT_BLUE); (0, tty.GRAY)].

(** The two fields of a log record that the formatter reads. *)
Record LogRecord : Type := mkLogRecord {
  levelno : Z;
  levelname : str
}.

(** [ColoredFormatter.format], up to its call of [Formatter.format]: the
    colour of the level is looked up ([None] stands for the [KeyError] of
    a level without colour) and the level name of the record is replaced
    by the coloured one.  The rendering of the record by
    [Formatter.format] (time stamp, process and thread names) is not
    modelled. *)
Definition format (windows : bool) (record : LogRecord) : option LogRecord :=
  level_color ← __LEVEL_COLORS__ !! levelno record;
  Some (mkLogRecord (levelno record)
          (tty.pretty windows (levelname record) (Some level_color) None None)).

End colored_logging.

(** The package [construct_cache_fixer.logging] with its global
    [__default_level__] as an explicit state. *)
Module construct_cache_fixer.

(** [setLevel(level)]: the new value of [__default_level__]. *)
Definition setLevel (level : option logging.level_arg) : logging.level_arg :=
  logging.if_not level (logging.LevelInt logging.INFO).

(** [getLogger(name, level)] when the global holds [__default_level__]. *)
Definition getLogger (__default_level__ : logging.level_arg) (caller : str)
    (name : option str) (level : option logging.level_arg)
    : exn + logging.Logger :=
  let name := match name with
              | Some n => if bool_decide (n = []) then caller else n
              | None => caller
              end in
  let level := logging.if_not level __default_level__ in
  logging.ColoredLogger name (Some level).

End construct_cache_fixer.


(* ===================================================================== *)
(** * Properties of the text operations *)
(* ===================================================================== *)

Section TextFacts.

Implicit Types (s t old new sub : str) (c : ascii).

Lemma startswith_spec p s : startswith p s = true ↔ ∃ t, s = p ++ t.
Proof.
  revert s. induction p as [|a p IH]; intros s; simpl.
  - split; eauto.
  - destruct s as [|b s]; simpl.
    + split; [done | intros [t Ht]; discriminate].
    + rewrite andb_true_iff, bool_decide_eq_true, IH. split.
      * intros [-> [t ->]]. eauto.
      * intros [t Ht]. injection Ht as -> ->. eauto.
Qed.

Lemma startswith_app p t : startswith p (p ++ t) = true.
Proof. apply startswith_spec. eauto. Qed.

Lemma occurs_at_spec i sub s :
  occurs_at i sub s = true ↔ ∃ l r, s = l ++ sub ++ r ∧ length l = i.
Proof.
  unfold occurs_at. rewrite andb_true_iff, bool_decide_eq_true, startswith_spec.
  split.
  - intros [Hi [t Ht]]. exists (take i s), t.
    rewrite <- Ht, take_drop, length_take. split; [done | lia].
  - intros (l & r & -> & <-). split.
    + rewrite length_app. lia.
    + exists r. by rewrite drop_app_length.
Qed.

Lemma occurs_cons sub c s : occurs sub s → occurs sub (c :: s).
Proof. intros (l & r & ->). by exists (c :: l), r. Qed.

Lemma occurs_app_l sub s t : occurs sub s → occurs sub (t ++ s).
Proof. intros (l & r & ->). exists (t ++ l), r. by rewrite <- app_assoc. Qed.

Lemma occurs_app_r sub s t : occurs sub s → occurs sub (s ++ t).
Proof.
  intros (l & r & ->). exists l, (r ++ t). by rewrite <- !app_assoc.
Qed.

Lemma occurs_trans sub s t : occurs sub s → occurs s t → occurs sub t.
Proof.
  intros H (l & r & ->). by apply occurs_app_l, occurs_app_r.
Qed.

Lemma occurs_uncons sub c s :
  occurs sub (c :: s) → startswith sub (c :: s) = true ∨ occurs sub s.
Proof.
  intros ([|a l] & r & H); simpl in H.
  - left. apply startswith_spec. eauto.
  - injection H as -> ->. right. by exists l, r.
Qed.

(** Passing over [k] characters and going on is going on [k] characters
    later. *)
Lemma replace_from_skip old new k s :
  replace_from old new k s = replace_from old new 0 (drop k s).
Proof.
  revert k. induction s as [|c s IH]; intros [|k]; simpl; done.
Qed.

Lemma replace_from_occurrence a old new t :
  replace_from (a :: old) new 0 ((a :: old) ++ t)
  = new ++ replace_from (a :: old) new 0 t.
Proof.
  change (replace_from (a :: old) new 0 ((a :: old) ++ t))
    with (if startswith (a :: old) ((a :: old) ++ t)
          then new ++ replace_from (a :: old) new (length (a :: old) - 1) (old ++ t)
          else a :: replace_from (a :: old) new 0 (old ++ t)).
  rewrite startswith_app, replace_from_skip. simpl.
  by rewrite Nat.sub_0_r, drop_app_length.
Qed.

Lemma replace_from_other old new c s :
  startswith old (c :: s) = false →
  replace_from old new 0 (c :: s) = c :: replace_from old new 0 s.
Proof. intros H. simpl replace_from. simpl in H. by rewrite H. Qed.

Lemma replace_from_absent old new s :
  ¬ occurs old s → replace_from old new 0 s = s.
Proof.
  induction s as [|c s IH]; intros Hno; [done|].
  rewrite replace_from_other.
  - f_equal. apply IH. intros H. by apply Hno, occurs_cons.
  - apply not_true_is_false. intros H. apply Hno.
    apply startswith_spec in H as [t ->]. by exists [], t.
Qed.

Lemma str_replace_absent s old new :
  ¬ occurs old s → str_replace s old new = s.
Proof.
  intros Hno. destruct old as [|a old].
  - destruct Hno. by exists [], s.
  - by apply replace_from_absent.
Qed.

Lemma replaced_cons old new c s t :
  startswith old (c :: s) = false →
  replaced old new s t → replaced old new (c :: s) (c :: t).
Proof.
  intros Hc H. destruct H as [s Hno | p rest rest' Hleft Hrest].
  - apply replaced_none. intros H.
    apply occurs_uncons in H as [H|H]; [congruence | done].
  - apply (replaced_first old new (c :: p)); [|done].
    intros [|a l] r Heq; simpl in Heq.
    + exfalso. apply not_true_iff_false in Hc. apply Hc.
      apply startswith_spec. exists r. exact Heq.
    + injection Heq as -> Heq. apply Hleft in Heq. simpl. lia.
Qed.

Lemma replace_from_replaced a old new s :
  replaced (a :: old) new s (replace_from (a :: old) new 0 s).
Proof.
  remember (length s) as n eqn:Hn. revert s Hn.
  induction n as [n IH] using lt_wf_ind. intros s ->.
  destruct s as [|c s]; [apply replaced_none; intros ([|??] & ? & ?); discriminate|].
  destruct (startswith (a :: old) (c :: s)) eqn:E.
  - apply startswith_spec in E as [t Et]. rewrite Et, replace_from_occurrence.
    apply (replaced_first (a :: old) new []).
    + intros; simpl; lia.
    + eapply IH; [|done]. rewrite Et, length_app. simpl. lia.
  - rewrite replace_from_other by done. apply replaced_cons; [done|].
    eapply IH; [|done]. simpl. lia.
Qed.

Lemma str_replace_replaced s old new :
  old ≠ [] → replaced old new s (str_replace s old new).
Proof. destruct old; [done|]. intros _. apply replace_from_replaced. Qed.

(** The relation determines the result: it is what [str.replace] computes. *)
Lemma replaced_unique a old new s t :
  replaced (a :: old) new s t → t = replace_from (a :: old) new 0 s.
Proof.
  induction 1 as [s Hno | p rest rest' Hleft _ IH].
  - by rewrite replace_from_absent.
  - subst rest'. clear -Hleft. induction p as [|c p IHp].
    + by rewrite !app_nil_l, replace_from_occurrence.
    + rewrite <- !app_comm_cons, replace_from_other.
      * f_equal. apply IHp. intros l r Heq.
        assert (length (c :: p) ≤ length (c :: l)) as Hle; [|simpl in Hle; lia].
        apply (Hleft (c :: l) r). rewrite <- !app_comm_cons. by f_equal.
      * apply not_true_is_false. intros H. apply startswith_spec in H as [t Ht].
        assert (length (c :: p) ≤ length (@nil ascii)) as Hle; [|simpl in Hle; lia].
        apply (Hleft [] t). rewrite <- !app_comm_cons. exact Ht.
Qed.

Lemma replace_from_keeps_new a old new s :
  occurs (a :: old) s → occurs new (replace_from (a :: old) new 0 s).
Proof.
  induction s as [|c s IH]; intros Hocc.
  - destruct Hocc as ([|??] & ? & ?); discriminate.
  - destruct (startswith (a :: old) (c :: s)) eqn:E.
    + apply startswith_spec in E as [t Et]. rewrite Et, replace_from_occurrence.
      by exists [], (replace_from (a :: old) new 0 t).
    + rewrite replace_from_other by done. apply occurs_cons, IH.
      apply occurs_uncons in Hocc as [H|H]; [congruence | done].
Qed.

(** The lines of a text, put together again, are the text. *)
Lemma concat_readlines s : concat (readlines s) = s.
Proof.
  induction s as [|c s IH]; [done|]. simpl.
  case_bool_decide; simpl; [by rewrite IH|].
  destruct (readlines s) as [|l ls]; simpl in *; by rewrite <- IH.
Qed.

Lemma occurs_concat (l : str) (ls : list str) : l ∈ ls → occurs l (concat ls).
Proof.
  induction 1 as [l ls | l l' ls _ IH]; simpl.
  - by exists [], (concat ls).
  - by apply occurs_app_l.
Qed.

Lemma readlines_occurs line s : line ∈ readlines s → occurs line s.
Proof. intros H. rewrite <- (concat_readlines s). by apply occurs_concat. Qed.

(** A character before the last of a list. *)
Lemma elem_of_removelast (c : ascii) (l : str) :
  c ∈ removelast l ↔ ∃ x y, l = x ++ c :: y ∧ y ≠ [].
Proof.
  split.
  - intros Hc. destruct (decide (l = [])) as [->|Hne]; [by apply elem_of_nil in Hc|].
    destruct (exists_last Hne) as (l' & z & ->).
    rewrite removelast_last in Hc.
    apply list_elem_of_split in Hc as (x & y & ->).
    exists x, (y ++ [z]). split; [by rewrite <- app_assoc|]. by destruct y.
  - intros (x & y & -> & Hy).
    rewrite removelast_app by done.
    apply elem_of_app. right. destruct y; [done|]. left.
Qed.

(** After a character that stands in the name at most at its end, the
    text is cut in two for the replacement: no occurrence of the name
    reaches across the cut. *)
Lemma replace_from_boundary a old new c s2 : ∀ s1,
  c ∉ removelast (a :: old) →
  s1 = [] ∨ last s1 = Some c →
  replace_from (a :: old) new 0 (s1 ++ s2)
  = replace_from (a :: old) new 0 s1 ++ replace_from (a :: old) new 0 s2.
Proof.
  intros s1 Hc. remember (length s1) as n eqn:Hn. revert s1 Hn.
  induction n as [n IH] using lt_wf_ind. intros s1 -> Hlast.
  destruct s1 as [|b s1]; [done|].
  destruct Hlast as [|Hlast]; [done|].
  remember (a :: old) as name eqn:Hname.
  destruct (startswith name ((b :: s1) ++ s2)) eqn:E.
  - apply startswith_spec in E as [t Et].
    remember (b :: s1) as s eqn:Hs.
    assert (length name ≤ length s) as Hle.
    { destruct (decide (length name ≤ length s)) as [|Hgt]; [done|].
      exfalso. apply Hc. rewrite removelast_firstn_len.
      apply last_Some in Hlast as [s' Hs'].
      assert (name !! length s' = Some c) as Hat.
      { rewrite Hs' in Et, Hgt. rewrite length_app in Hgt. simpl in Hgt.
        apply (f_equal (λ l, l !! length s')) in Et.
        rewrite <- app_assoc, lookup_app_r, Nat.sub_diag in Et by done.
        simpl in Et. rewrite lookup_app_l in Et by lia. done. }
      apply (list_elem_of_lookup_2 _ (length s')).
      rewrite lookup_take_lt; [done|].
      rewrite Hs', length_app in Hgt. simpl in Hgt. lia. }
    assert (∃ t1, s = name ++ t1 ∧ t = t1 ++ s2) as (t1 & Es & ->).
    { exists (drop (length name) s).
      apply (f_equal (take (length name))) in Et as Htake.
      rewrite take_app_le, take_app_length in Htake by done.
      apply (f_equal (drop (length name))) in Et as Hdrop.
      rewrite drop_app_le, drop_app_length in Hdrop by done.
      split; [|done]. rewrite <- (take_drop (length name) s) at 1.
      by rewrite Htake. }
    rewrite Es, <- app_assoc. subst name. rewrite !replace_from_occurrence.
    rewrite (IH (length t1)); [by rewrite <- app_assoc| |done|].
    + rewrite Es, length_app. simpl. lia.
    + destruct (decide (t1 = [])) as [|Hne]; [by left|]. right.
      rewrite Es, last_app in Hlast.
      destruct (last t1) eqn:El; [done|]. by apply last_None in El.
  - subst name. rewrite <- app_comm_cons, !replace_from_other; [| |done].
    + rewrite (IH (length s1)); [done|simpl; lia|done|].
      destruct s1 as [|x s1]; [by left|]. by right.
    + apply not_true_is_false. intros H. apply not_true_iff_false in E.
      apply E. apply startswith_spec in H as [t Ht].
      apply startswith_spec. exists (t ++ s2).
      by rewrite Ht, <- app_assoc.
Qed.

(** A line of a text that does not hold the name goes through the
    replacement as it is: it stands between two ends of lines, and a name
    that is found in one line holds a newline at most at its end. *)
Lemma str_replace_line before line after old new :
  old ≠ [] → "010"%char ∉ removelast old →
  before = [] ∨ last before = Some "010"%char →
  after = [] ∨ last line = Some "010"%char →
  ¬ occurs old line →
  str_replace (before ++ line ++ after) old new
  = str_replace before old new ++ line ++ str_replace after old new.
Proof.
  intros Hold Hnl Hbefore Hafter Hno.
  destruct old as [|a old]; [done|]. unfold str_replace.
  rewrite (replace_from_boundary _ _ _ "010"%char) by done. f_equal.
  destruct Hafter as [->|Hlast].
  - by rewrite !app_nil_r, replace_from_absent.
  - rewrite (replace_from_boundary _ _ _ "010"%char); [|done|by right].
    by rewrite replace_from_absent.
Qed.

Lemma readlines_nil s : readlines s = [] → s = [].
Proof.
  destruct s as [|c s]; [done|]. simpl.
  case_bool_decide; [done|]. by destruct (readlines s).
Qed.

(** The lines of a text that follows the end of a line. *)
Lemma readlines_app s t :
  s = [] ∨ last s = Some "010"%char →
  readlines (s ++ t) = readlines s ++ readlines t.
Proof.
  induction s as [|c s IH]; intros Hs; [done|].
  destruct Hs as [?|Hlast]; [done|].
  assert (s = [] ∨ last s = Some "010"%char) as Hs.
  { destruct s as [|b s]; [by left|by right]. }
  rewrite <- app_comm_cons. simpl. rewrite (IH Hs).
  case_bool_decide; [done|].
  destruct (readlines s) as [|l ls] eqn:E; [|done].
  apply readlines_nil in E as ->. simpl in Hlast. congruence.
Qed.

End TextFacts.
(* ===================================================================== *)
(** * Properties of the patterns *)
(* ===================================================================== *)

Section PatternFacts.

Implicit Types (s t name line : str) (ns : list re.node).

Lemma escaped_special (a : ascii) :
  bool_decide (a ∈ re._special_chars) = true →
  bool_decide (a = "W"%char) = false ∧ re.is_ascii_alnum a = false.
Proof.
  destruct a as [[] [] [] [] [] [] [] []]; vm_compute; intuition discriminate.
Qed.

Lemma unescaped_plain (a : ascii) :
  bool_decide (a ∈ re._special_chars) = false →
  bool_decide (a = "\"%char) = false
  ∧ bool_decide (a ∈ re.SPECIAL_CHARS) = false.
Proof.
  destruct a as [[] [] [] [] [] [] [] []]; vm_compute; intuition discriminate.
Qed.

(** An escaped name compiles to its characters, each a literal. *)
Lemma compile_escape name (tail : str) :
  re.compile (re.escape name ++ tail)
  = (λ ns, (re.LITERAL <$> name) ++ ns) <$> re.compile tail.
Proof.
  induction name as [|a name IH]; simpl.
  - by destruct (re.compile tail).
  - destruct (bool_decide (a ∈ re._special_chars)) eqn:E.
    + apply escaped_special in E as [E1 E2]. simpl.
      rewrite E1, E2, IH. by destruct (re.compile tail).
    + apply unescaped_plain in E as [E1 E2]. simpl.
      rewrite E1, E2, IH. by destruct (re.compile tail).
Qed.

(** The pattern of the scanner always compiles, to: a non-word character,
    the name letter by letter, a non-word character. *)
Lemma asset_regex_compiles name :
  main.asset_regex name
  = Some (re.NOT_WORD :: (re.LITERAL <$> name) ++ [re.NOT_WORD]).
Proof.
  unfold main.asset_regex.
  change (lit "\W" ++ re.escape name ++ lit "\W")
    with ("\"%char :: "W"%char :: (re.escape name ++ lit "\W")).
  cbn [re.compile]. rewrite compile_escape. reflexivity.
Qed.

Lemma match_literals name ns s :
  re.match_ ((re.LITERAL <$> name) ++ ns) s = true
  ↔ ∃ t, s = name ++ t ∧ re.match_ ns t = true.
Proof.
  revert s. induction name as [|a name IH]; intros s; simpl.
  - split; [eauto | by intros (t & -> & H)].
  - destruct s as [|b s].
    + split; [done | intros (t & H & _); discriminate].
    + rewrite andb_true_iff, bool_decide_eq_true, IH. split.
      * intros [-> (t & -> & H)]. eauto.
      * intros (t & Heq & H). injection Heq as -> ->. eauto.
Qed.

Lemma match_asset_regex name s :
  re.match_ (re.NOT_WORD :: (re.LITERAL <$> name) ++ [re.NOT_WORD]) s = true
  ↔ ∃ a b r, s = a :: name ++ b :: r
             ∧ re.is_word a = false ∧ re.is_word b = false.
Proof.
  destruct s as [|a s]; simpl.
  - split; [done | intros (a & b & r & H & _); discriminate].
  - rewrite andb_true_iff, negb_true_iff, match_literals. split.
    + intros [Ha (t & -> & Ht)]. destruct t as [|b r]; [done|].
      simpl in Ht. rewrite andb_true_r, negb_true_iff in Ht.
      by exists a, b, r.
    + intros (a' & b & r & Heq & Ha & Hb). injection Heq as -> ->.
      split; [done|]. exists (b :: r). split; [done|]. simpl. by rewrite Hb.
Qed.

Lemma search_spec ns s :
  re.search ns s = true ↔ ∃ l t, s = l ++ t ∧ re.match_ ns t = true.
Proof.
  induction s as [|c s IH]; simpl.
  - rewrite orb_false_r. split.
    + intros H. by exists [], [].
    + intros (l & t & Heq & H). symmetry in Heq.
      apply app_eq_nil in Heq as [_ ->]. done.
  - rewrite orb_true_iff, IH. split.
    + intros [H | (l & t & -> & H)].
      * by exists [], (c :: s).
      * by exists (c :: l), t.
    + intros ([|a l] & t & Heq & H); simpl in Heq.
      * left. by rewrite Heq.
      * injection Heq as -> ->. right. eauto.
Qed.

(** The match rule of the scanner on one line. *)
Lemma search_whole_word name line :
  re.search (re.NOT_WORD :: (re.LITERAL <$> name) ++ [re.NOT_WORD]) line = true
  ↔ whole_word_in name line.
Proof.
  rewrite search_spec. unfold whole_word_in. split.
  - intros (l & t & -> & H). apply match_asset_regex in H as (a & b & r & -> & ?).
    by exists l, a, b, r.
  - intros (l & a & b & r & -> & Ha & Hb). exists l, (a :: name ++ b :: r).
    split; [done|]. apply match_asset_regex. by exists a, b, r.
Qed.

Lemma whole_word_occurs name line : whole_word_in name line → occurs name line.
Proof.
  intros (l & a & b & r & -> & _). exists (l ++ [a]), (b :: r).
  by rewrite <- app_assoc.
Qed.

Lemma lines_match_spec ns s :
  main.lines_match ns s = true
  ↔ ∃ line, line ∈ readlines s ∧ re.search ns line = true.
Proof.
  unfold main.lines_match. rewrite existsb_exists.
  split; intros (line & H1 & H2); exists line; split; try done;
    by apply list_elem_of_In.
Qed.

(** Occurrence is decided by trying every index. *)
Lemma occurs_decide (sub s : str) :
  occurs sub s
  ↔ existsb (λ i, occurs_at i sub s) (seq 0 (S (length s))) = true.
Proof.
  rewrite existsb_exists. split.
  - intros (l & r & ->). exists (length l). split.
    + apply in_seq. rewrite !length_app. lia.
    + apply occurs_at_spec. by exists l, r.
  - intros (i & _ & H). apply occurs_at_spec in H as (l & r & -> & _).
    by exists l, r.
Qed.

End PatternFacts.

(* ===================================================================== *)
(** * The scanner's match rule (C1, C2) *)
(* ===================================================================== *)

(** C1, as the code has it: for every asset, the pattern of the scanner
    compiles, and it matches in a source line exactly when the reference
    name stands there with a non-word character before it and a non-word
    character after it, both in the line.  So the name is never matched
    inside a longer identifier and is matched next to punctuation. *)
Theorem scanner_matches_whole_words (asset : Path) (line : str) :
  ∃ rx, main.asset_regex (main.asset_name asset) = Some rx
        ∧ (re.search rx line = true
           ↔ whole_word_in (main.asset_name asset) line).
Proof.
  eexists. split; [apply asset_regex_compiles|]. apply search_whole_word.
Qed.

(** C1, where the claim fails: [game.png] alone on its line, from the
    start of the line to the newline, is a token of its own and yet is not
    matched, because no character precedes it. *)
Lemma line_start_not_matched :
  ∃ rx, main.asset_regex (main.asset_name [lit "images"; lit "game.png"]) = Some rx
        ∧ standalone_in (main.asset_name [lit "images"; lit "game.png"])
                        (lit "game.png" ++ ["010"%char])
        ∧ re.search rx (lit "game.png" ++ ["010"%char]) = false.
Proof.
  eexists. split; [apply asset_regex_compiles|]. split; [|by vm_compute].
  exists [], ["010"%char]. split; [done|]. split.
  - intros l' a H. by destruct l'.
  - intros b r' H. injection H as <- _. by vm_compute.
Qed.

(** C2, as the code has it: in a text where [bar] occurs only as the end
    of [foo_bar], a whole-word scan for [bar] reports nothing; and a
    whole-word scan for [foo_bar] reports the text exactly when one of its
    lines holds [foo_bar] with a non-word character on each side. *)
Theorem bar_inside_foo_bar (content : str) :
  (∀ i, occurs_at i (lit "bar") content = true →
        4 ≤ i ∧ occurs_at (i - 4) (lit "foo_bar") content = true) →
  (∃ rx, main.asset_regex (lit "bar") = Some rx
         ∧ main.lines_match rx content = false)
  ∧ (∃ rx, main.asset_regex (lit "foo_bar") = Some rx
           ∧ (main.lines_match rx content = true
              ↔ ∃ line, line ∈ readlines content
                        ∧ whole_word_in (lit "foo_bar") line)).
Proof.
  intros Honly. split.
  - eexists. split; [apply asset_regex_compiles|].
    apply not_true_is_false. intros H.
    apply lines_match_spec in H as (line & Hline & H).
    apply search_whole_word in H as (l & a & b & r & -> & Ha & _).
    apply readlines_occurs in Hline as (pre & post & Hc).
    destruct (Honly (length (pre ++ l ++ [a]))) as [Hi Hfoo].
    { apply occurs_at_spec. exists (pre ++ l ++ [a]), (b :: r ++ post).
      split; [|done]. rewrite Hc. by rewrite <- !app_assoc. }
    apply occurs_at_spec in Hfoo as (l2 & r2 & Hc2 & Hlen).
    assert (pre ++ l ++ [a] = l2 ++ lit "foo_") as Heq.
    { assert (content = (pre ++ l ++ [a]) ++ lit "bar" ++ b :: r ++ post) as Hc1
        by (rewrite Hc; by rewrite <- !app_assoc).
      assert (content = (l2 ++ lit "foo_") ++ lit "bar" ++ r2) as Hc3
        by (rewrite Hc2; by rewrite <- !app_assoc).
      rewrite Hc1 in Hc3. apply app_inj_1 in Hc3 as [? _]; [done|].
      rewrite (length_app l2). change (length (lit "foo_")) with 4. lia. }
    rewrite !app_assoc in Heq. change (lit "foo_") with (lit "foo" ++ ["_"%char]) in Heq.
    rewrite (app_assoc l2) in Heq.
    apply app_inj_2 in Heq as [_ Heq]; [|done]. injection Heq as ->.
    by vm_compute in Ha.
  - eexists. split; [apply asset_regex_compiles|].
    rewrite lines_match_spec. by setoid_rewrite search_whole_word.
Qed.

Lemma bar_inside_foo_bar_witness :
  (∃ rx, main.asset_regex (lit "bar") = Some rx
         ∧ main.lines_match rx (lit " foo_bar ") = false)
  ∧ (∃ rx, main.asset_regex (lit "foo_bar") = Some rx
           ∧ (main.lines_match rx (lit " foo_bar ") = true
              ↔ ∃ line, line ∈ readlines (lit " foo_bar ")
                        ∧ whole_word_in (lit "foo_bar") line)).
Proof.
  apply (bar_inside_foo_bar (lit " foo_bar ")).
  intros i H.
  do 10 (destruct i as [|i];
         [ vm_compute in H;
           first [ discriminate | split; [lia | by vm_compute] ]
         | ]).
  vm_compute in H. discriminate.
Defined.

(** C2, where the claim fails: the text [foo_bar] contains [foo_bar] and a
    whole-word scan for [foo_bar] reports nothing (no character on either
    side); the text [foo_bar bar;] contains [foo_bar] and a whole-word scan
    for [bar] reports it. *)
Lemma foo_bar_scans_differ :
  ∃ rx_bar rx_foo_bar,
    main.asset_regex (lit "bar") = Some rx_bar
    ∧ main.asset_regex (lit "foo_bar") = Some rx_foo_bar
    ∧ occurs (lit "foo_bar") (lit "foo_bar")
    ∧ main.lines_match rx_foo_bar (lit "foo_bar") = false
    ∧ occurs (lit "foo_bar") (lit "foo_bar bar;")
    ∧ main.lines_match rx_bar (lit "foo_bar bar;") = true.
Proof.
  do 2 eexists. split; [apply asset_regex_compiles|].
  split; [apply asset_regex_compiles|].
  split; [by exists [], []|]. split; [by vm_compute|].
  split; [by exists [], (lit " bar;")|]. by vm_compute.
Qed.

(* ===================================================================== *)
(** * Paths and reference names (C3) *)
(* ===================================================================== *)

Section PathFacts.

Implicit Types (p dir : Path) (nm : str).

Lemma name_snoc dir nm : pathlib.name (dir ++ [nm]) = nm.
Proof. unfold pathlib.name. by rewrite last_snoc. Qed.

(** A name is its stem followed by its suffix. *)
Lemma name_stem_suffix p : pathlib.name p = pathlib.stem p ++ pathlib.suffix p.
Proof.
  unfold pathlib.stem, pathlib.suffix.
  destruct (rfind "." (pathlib.name p)) as [i|]; [|by rewrite app_nil_r].
  destruct ((0 <? i) && (i <? length (pathlib.name p) - 1)).
  - by rewrite take_drop.
  - by rewrite app_nil_r.
Qed.

Lemma stem_nonempty p : pathlib.name p ≠ [] → pathlib.stem p ≠ [].
Proof.
  intros Hnm. unfold pathlib.stem.
  destruct (rfind "." (pathlib.name p)) as [i|]; [|done].
  destruct ((0 <? i) && (i <? length (pathlib.name p) - 1)) eqn:E; [|done].
  apply andb_true_iff in E as [E1 E2].
  apply Nat.ltb_lt in E1, E2. intros H.
  apply (f_equal length) in H. rewrite length_take in H. simpl in H. lia.
Qed.

Lemma old_asset_name_nonempty p :
  pathlib.name p ≠ [] → main.old_asset_name p ≠ [].
Proof.
  intros H. unfold main.old_asset_name. case_bool_decide; [|done].
  by apply stem_nonempty.
Qed.

End PathFacts.

(** C3: the reference name of an asset, in the scanner ([asset_name]) and
    in the rewriter ([old_asset_name], [new_asset_name]), is the stem of
    the asset when its extension is [.webm], and for every other extension
    the full file name, which is the stem followed by the extension. *)
Theorem reference_name_rule (asset : Path) :
  (pathlib.suffix asset = lit ".webm" →
     main.asset_name asset = pathlib.stem asset
     ∧ main.old_asset_name asset = pathlib.stem asset
     ∧ main.new_asset_name asset = pathlib.stem asset)
  ∧ (pathlib.suffix asset ≠ lit ".webm" →
     pathlib.name asset = pathlib.stem asset ++ pathlib.suffix asset
     ∧ main.asset_name asset = pathlib.stem asset ++ pathlib.suffix asset
     ∧ main.old_asset_name asset = pathlib.stem asset ++ pathlib.suffix asset
     ∧ main.new_asset_name asset = pathlib.stem asset ++ pathlib.suffix asset).
Proof.
  unfold main.asset_name, main.old_asset_name, main.new_asset_name.
  split; intros H.
  - by rewrite bool_decide_eq_true_2.
  - rewrite bool_decide_eq_false_2 by done. by rewrite <- name_stem_suffix.
Qed.

Lemma reference_name_rule_witness :
  main.asset_name [lit "media"; lit "jump.webm"]
  = pathlib.stem [lit "media"; lit "jump.webm"]
  ∧ main.old_asset_name [lit "media"; lit "jump.webm"]
    = pathlib.stem [lit "media"; lit "jump.webm"]
  ∧ main.new_asset_name [lit "media"; lit "jump.webm"]
    = pathlib.stem [lit "media"; lit "jump.webm"].
Proof.
  apply (proj1 (reference_name_rule [lit "media"; lit "jump.webm"])).
  reflexivity.
Defined.

Example reference_name_png :
  main.asset_name [lit "images"; lit "shared-0-sheet0.png"] = lit "shared-0-sheet0.png".
Proof. reflexivity. Qed.

Example reference_name_webm :
  main.asset_name [lit "media"; lit "jump.webm"] = lit "jump".
Proof. reflexivity. Qed.

(* ===================================================================== *)
(** * The rewriter (C4) *)
(* ===================================================================== *)

Lemma replace_asset_uses_file (fs : FS) (source_file old_asset new_asset : Path)
    (content : str) :
  fs !! source_file = Some (File content) →
  main.replace_asset_uses fs source_file old_asset new_asset
  = inr (<[source_file :=
             File (str_replace content (main.old_asset_name old_asset)
                               (main.new_asset_name new_asset))]> fs).
Proof.
  intros Hf. unfold main.replace_asset_uses, os.read_text, os.write_text.
  by rewrite Hf.
Qed.

(** C4: the rewrite of a source file puts back, at the same path and in
    place of the whole former content, that content with every occurrence
    of the old reference name replaced by the new one; the occurrences are
    those of the name as a substring, whatever stands around them.  No
    other path changes. *)
Theorem rewrite_replaces_every_occurrence (fs : FS)
    (source_file old_asset new_asset : Path) (content : str) :
  fs !! source_file = Some (File content) →
  pathlib.name old_asset ≠ [] →
  ∃ content',
    main.replace_asset_uses fs source_file old_asset new_asset
    = inr (<[source_file := File content']> fs)
    ∧ content' = str_replace content (main.old_asset_name old_asset)
                             (main.new_asset_name new_asset)
    ∧ replaced (main.old_asset_name old_asset) (main.new_asset_name new_asset)
               content content'.
Proof.
  intros Hf Hnm. eexists. split; [|split; [reflexivity|]].
  - by apply replace_asset_uses_file.
  - by apply str_replace_replaced, old_asset_name_nonempty.
Qed.

Lemma rewrite_replaces_every_occurrence_witness :
  ∃ content',
    main.replace_asset_uses
      {[ [lit "game"; lit "index.html"] := File (lit "<img src='icon.png'> icon.png.bak") ]}
      [lit "game"; lit "index.html"]
      [lit "game"; lit "icon.png"] [lit "game"; lit "icon_Ab3dEf9h.png"]
    = inr (<[ [lit "game"; lit "index.html"] := File content']>
             {[ [lit "game"; lit "index.html"] := File (lit "<img src='icon.png'> icon.png.bak") ]})
    ∧ content' = str_replace (lit "<img src='icon.png'> icon.png.bak")
                   (main.old_asset_name [lit "game"; lit "icon.png"])
                   (main.new_asset_name [lit "game"; lit "icon_Ab3dEf9h.png"])
    ∧ replaced (main.old_asset_name [lit "game"; lit "icon.png"])
               (main.new_asset_name [lit "game"; lit "icon_Ab3dEf9h.png"])
               (lit "<img src='icon.png'> icon.png.bak") content'.
Proof.
  apply rewrite_replaces_every_occurrence.
  - apply lookup_singleton_eq.
  - by vm_compute.
Defined.

(** The replacement does not look at word boundaries. *)
Example rewrite_inside_identifier :
  str_replace (lit "play('jump'); var jumping;") (lit "jump") (lit "jump_Ab3dEf9h")
  = lit "play('jump_Ab3dEf9h'); var jump_Ab3dEf9hing;".
Proof. reflexivity. Qed.

(* ===================================================================== *)
(** * Letter case (C10) *)
(* ===================================================================== *)

Section CaseFacts.

Implicit Types (name line text : str).

Lemma only_in_other_case_absent name line :
  only_in_other_case name line → ¬ occurs name line.
Proof. intros [_ Hother] Hocc. by apply (Hother name). Qed.

(** A piece of a file without the name does not count for the scanner
    when it stands between two ends of lines. *)
Lemma lines_match_line rx name before line after :
  (∀ l, re.search rx l = true → occurs name l) →
  before = [] ∨ last before = Some "010"%char →
  after = [] ∨ last line = Some "010"%char →
  ¬ occurs name line →
  main.lines_match rx (before ++ line ++ after)
  = main.lines_match rx before || main.lines_match rx after.
Proof.
  intros Hrx Hbefore Hafter Hno. unfold main.lines_match.
  rewrite readlines_app by done.
  assert (readlines (line ++ after) = readlines line ++ readlines after) as ->.
  { destruct Hafter as [->|Hlast]; [by rewrite !app_nil_r|].
    apply readlines_app. by right. }
  rewrite !existsb_app.
  assert (existsb (re.search rx) (readlines line) = false) as ->; [|done].
  apply not_true_is_false. intros H.
  apply existsb_exists in H as (l & Hl & Hs).
  apply Hno. eapply occurs_trans; [by apply Hrx|].
  apply readlines_occurs. by apply list_elem_of_In.
Qed.

Lemma lower_newline (c : ascii) : lower c = "010"%char → c = "010"%char.
Proof. destruct c as [[] [] [] [] [] [] [] []]; by vm_compute. Qed.

(** A name that is found in one line, in whatever case, holds a newline
    at most at its end. *)
Lemma name_in_line name line v :
  "010"%char ∉ removelast line →
  occurs v line → same_ignoring_case v name →
  "010"%char ∉ removelast name.
Proof.
  intros Hline (l & r & ->) Hsame Hname.
  apply elem_of_removelast in Hname as (x & y & -> & Hy).
  unfold same_ignoring_case in Hsame. rewrite fmap_app, fmap_cons in Hsame.
  apply fmap_app_inv in Hsame as (x' & rest & _ & Hrest & ->).
  symmetry in Hrest. apply fmap_cons_inv in Hrest as (c' & y' & Hc' & Hy' & ->).
  symmetry in Hc'. apply lower_newline in Hc' as ->.
  apply Hline, elem_of_removelast.
  exists (l ++ x'), (y' ++ r). split; [by rewrite <- !app_assoc|].
  destruct y'; [|done]. by destruct y.
Qed.

End CaseFacts.

(** C10: scanning and rewriting are case-sensitive.  Take a file and in it
    a line that holds the reference name of an asset in another letter
    case and nowhere as it is written.  The scanner does not match that
    line, and whether it reports the file is decided by the other lines.
    The rewriter replaces the name in what comes before the line and in
    what comes after it, and puts the line back as it was, with the
    occurrences in another case in it.  The name is that of a file, so it
    is not empty. *)
Theorem scan_and_rewrite_case_sensitive (asset new_asset : Path)
    (before line after : str) :
  pathlib.name asset ≠ [] →
  "010"%char ∉ removelast line →
  before = [] ∨ last before = Some "010"%char →
  after = [] ∨ last line = Some "010"%char →
  only_in_other_case (main.asset_name asset) line →
  (∃ rx, main.asset_regex (main.asset_name asset) = Some rx
         ∧ re.search rx line = false
         ∧ main.lines_match rx (before ++ line ++ after)
           = main.lines_match rx before || main.lines_match rx after)
  ∧ str_replace (before ++ line ++ after) (main.old_asset_name asset)
                (main.new_asset_name new_asset)
    = str_replace before (main.old_asset_name asset)
                  (main.new_asset_name new_asset)
      ++ line
      ++ str_replace after (main.old_asset_name asset)
                     (main.new_asset_name new_asset)
  ∧ (∀ fs source_file,
       fs !! source_file = Some (File (before ++ line ++ after)) →
       main.replace_asset_uses fs source_file asset new_asset
       = inr (<[source_file :=
                  File (str_replace before (main.old_asset_name asset)
                                    (main.new_asset_name new_asset)
                        ++ line
                        ++ str_replace after (main.old_asset_name asset)
                                       (main.new_asset_name new_asset))]> fs)).
Proof.
  intros Hname Hline Hbefore Hafter Hcase.
  pose proof (only_in_other_case_absent _ _ Hcase) as Hno.
  pose proof (old_asset_name_nonempty _ Hname) as Hold.
  assert ("010"%char ∉ removelast (main.asset_name asset)) as Hnl.
  { destruct Hcase as [(v & Hocc & Hsame) _]. by eapply name_in_line. }
  assert (str_replace (before ++ line ++ after) (main.old_asset_name asset)
                      (main.new_asset_name new_asset)
          = str_replace before (main.old_asset_name asset)
                        (main.new_asset_name new_asset)
            ++ line
            ++ str_replace after (main.old_asset_name asset)
                           (main.new_asset_name new_asset)) as Hrepl
    by (by apply str_replace_line).
  split; [|split; [done|]].
  - eexists. split; [apply asset_regex_compiles|]. split.
    + apply not_true_is_false. intros H. apply search_whole_word in H.
      by apply Hno, whole_word_occurs.
    + apply (lines_match_line _ (main.asset_name asset)); [|done..].
      intros l H. by apply whole_word_occurs, search_whole_word.
  - intros fs source_file Hf.
    unfold main.replace_asset_uses, os.read_text, os.write_text.
    rewrite Hf. simpl. by rewrite Hrepl.
Qed.

Lemma scan_and_rewrite_case_sensitive_witness :
  (∃ rx, main.asset_regex (main.asset_name [lit "images"; lit "game.png"]) = Some rx
         ∧ re.search rx (lit "<a href='GAME.PNG'>" ++ ["010"%char]) = false
         ∧ main.lines_match rx
             ((lit "<img src='game.png'>" ++ ["010"%char])
              ++ (lit "<a href='GAME.PNG'>" ++ ["010"%char])
              ++ lit "load('game.png');")
           = main.lines_match rx (lit "<img src='game.png'>" ++ ["010"%char])
             || main.lines_match rx (lit "load('game.png');"))
  ∧ str_replace
      ((lit "<img src='game.png'>" ++ ["010"%char])
       ++ (lit "<a href='GAME.PNG'>" ++ ["010"%char])
       ++ lit "load('game.png');")
      (main.old_asset_name [lit "images"; lit "game.png"])
      (main.new_asset_name [lit "images"; lit "game_Ab3dEf9h.png"])
    = str_replace (lit "<img src='game.png'>" ++ ["010"%char])
        (main.old_asset_name [lit "images"; lit "game.png"])
        (main.new_asset_name [lit "images"; lit "game_Ab3dEf9h.png"])
      ++ (lit "<a href='GAME.PNG'>" ++ ["010"%char])
      ++ str_replace (lit "load('game.png');")
           (main.old_asset_name [lit "images"; lit "game.png"])
           (main.new_asset_name [lit "images"; lit "game_Ab3dEf9h.png"])
  ∧ (∀ fs source_file,
       fs !! source_file
       = Some (File ((lit "<img src='game.png'>" ++ ["010"%char])
                     ++ (lit "<a href='GAME.PNG'>" ++ ["010"%char])
                     ++ lit "load('game.png');")) →
       main.replace_asset_uses fs source_file [lit "images"; lit "game.png"]
                               [lit "images"; lit "game_Ab3dEf9h.png"]
       = inr (<[source_file :=
                  File (str_replace (lit "<img src='game.png'>" ++ ["010"%char])
                          (main.old_asset_name [lit "images"; lit "game.png"])
                          (main.new_asset_name [lit "images"; lit "game_Ab3dEf9h.png"])
                        ++ (lit "<a href='GAME.PNG'>" ++ ["010"%char])
                        ++ str_replace (lit "load('game.png');")
                             (main.old_asset_name [lit "images"; lit "game.png"])
                             (main.new_asset_name [lit "images"; lit "game_Ab3dEf9h.png"]))]>
                fs)).
Proof.
  apply (scan_and_rewrite_case_sensitive
           [lit "images"; lit "game.png"] [lit "images"; lit "game_Ab3dEf9h.png"]
           (lit "<img src='game.png'>" ++ ["010"%char])
           (lit "<a href='GAME.PNG'>" ++ ["010"%char])
           (lit "load('game.png');")).
  - by vm_compute.
  - apply (bool_decide_unpack _). by vm_compute.
  - right. reflexivity.
  - right. reflexivity.
  - split.
    + exists (lit "GAME.PNG"). split; [|by vm_compute].
      by exists (lit "<a href='"), (lit "'>" ++ ["010"%char]).
    + intros v Hocc _ ->. apply occurs_decide in Hocc. by vm_compute in Hocc.
Defined.

(** The other lines of that file are rewritten, and the line is not. *)
Example rewrite_keeps_other_case :
  str_replace
    ((lit "<img src='game.png'>" ++ ["010"%char])
     ++ (lit "<a href='GAME.PNG'>" ++ ["010"%char])
     ++ lit "load('game.png');")
    (lit "game.png") (lit "game_Ab3dEf9h.png")
  = (lit "<img src='game_Ab3dEf9h.png'>" ++ ["010"%char])
    ++ (lit "<a href='GAME.PNG'>" ++ ["010"%char])
    ++ lit "load('game_Ab3dEf9h.png');".
Proof. reflexivity. Qed.

(* ===================================================================== *)
(** * The random suffix and the new name of an asset *)
(* ===================================================================== *)

Lemma alnum_is_word (c : ascii) :
  re.is_ascii_alnum c = true → re.is_word c = true.
Proof.
  destruct c as [[] [] [] [] [] [] [] []]; vm_compute; intuition discriminate.
Qed.

Lemma alphabet_alnum (n : nat) :
  re.is_ascii_alnum
    (nth (n mod length (main.ascii_letters ++ main.digits))
         (main.ascii_letters ++ main.digits) "000"%char) = true.
Proof.
  assert (forallb re.is_ascii_alnum (main.ascii_letters ++ main.digits) = true)
    as Hall by (by vm_compute).
  rewrite forallb_forall in Hall. apply Hall, nth_In.
  apply Nat.mod_upper_bound. by vm_compute.
Qed.

(** The random suffix: as many characters as asked for, each a letter or
    a digit. *)
Lemma generate_random_string_alnum (rnd : nat → nat) (n : nat) :
  length (main.generate_random_string rnd n) = n
  ∧ Forall (λ c, re.is_ascii_alnum c = true) (main.generate_random_string rnd n).
Proof.
  unfold main.generate_random_string, main.choices. split.
  - by rewrite length_fmap, length_seq.
  - apply Forall_fmap, Forall_forall. intros i _. apply alphabet_alnum.
Qed.

Section RenameFacts.

Implicit Types (p asset : Path) (s t nm ext sfx : str) (c : ascii).

Lemma rfind_lt c s i : rfind c s = Some i → i < length s.
Proof.
  revert i. induction s as [|a s IH]; intros i; simpl; [done|].
  destruct (rfind c s) as [j|].
  - intros [= <-]. specialize (IH j eq_refl). lia.
  - case_bool_decide; [|done]. intros [= <-]. lia.
Qed.

Lemma rfind_app c s t :
  rfind c (s ++ t)
  = match rfind c t with
    | Some j => Some (length s + j)
    | None => rfind c s
    end.
Proof.
  induction s as [|a s IH]; simpl.
  - by destruct (rfind c t).
  - rewrite IH. by destruct (rfind c t).
Qed.

Lemma rfind_absent c s : Forall (λ a, a ≠ c) s → rfind c s = None.
Proof.
  induction 1 as [|a s Ha _ IH]; simpl; [done|].
  rewrite IH. by rewrite bool_decide_eq_false_2.
Qed.

(** From the last occurrence on, the character occurs once, in front. *)
Lemma rfind_drop c s i : rfind c s = Some i → rfind c (drop i s) = Some 0.
Proof.
  intros H. pose proof (rfind_lt _ _ _ H) as Hlt.
  rewrite <- (take_drop i s), rfind_app in H.
  destruct (rfind c (drop i s)) as [j|] eqn:E.
  - injection H as H. rewrite length_take in H. f_equal. lia.
  - apply rfind_lt in H. rewrite length_take in H. lia.
Qed.

Lemma alnum_no_dot sfx :
  Forall (λ c, re.is_ascii_alnum c = true) sfx →
  Forall (λ a, a ≠ "."%char) (lit "_" ++ sfx).
Proof.
  intros H. apply Forall_cons. split; [done|].
  eapply Forall_impl; [done|]. intros a Ha ->. by vm_compute in Ha.
Qed.

(** A path with a name is its parent and its name. *)
Lemma parent_name p : p ≠ [] → pathlib.parent p ++ [pathlib.name p] = p.
Proof.
  destruct p as [|x p _] using rev_ind; [done|]. intros _.
  unfold pathlib.parent. by rewrite removelast_last, name_snoc.
Qed.

(** The parts of a name that has a suffix. *)
Lemma suffix_parts p :
  pathlib.suffix p ≠ [] →
  ∃ i, rfind "." (pathlib.name p) = Some i
       ∧ 0 < i < length (pathlib.name p) - 1
       ∧ pathlib.stem p = take i (pathlib.name p)
       ∧ pathlib.suffix p = drop i (pathlib.name p).
Proof.
  unfold pathlib.suffix, pathlib.stem.
  destruct (rfind "." (pathlib.name p)) as [i|]; [|done].
  destruct ((0 <? i) && (i <? length (pathlib.name p) - 1)) eqn:E; [|done].
  intros _. exists i. apply andb_true_iff in E as [E1 E2].
  apply Nat.ltb_lt in E1, E2. repeat split; (done || lia).
Qed.

(** The parts of the new name, when the old name has a suffix: the old
    stem, an underscore, the random characters, and the old suffix. *)
Lemma renamed_parts rnd p :
  pathlib.suffix p ≠ [] →
  pathlib.name (main.rename_asset rnd p)
  = pathlib.stem p ++ lit "_" ++ main.generate_random_string rnd 8
    ++ pathlib.suffix p
  ∧ pathlib.stem (main.rename_asset rnd p)
    = pathlib.stem p ++ lit "_" ++ main.generate_random_string rnd 8
  ∧ pathlib.suffix (main.rename_asset rnd p) = pathlib.suffix p.
Proof.
  intros Hsfx. destruct (suffix_parts p Hsfx) as (i & Hi & Hrange & Hstem & Hsuf).
  destruct (generate_random_string_alnum rnd 8) as [Hlen Halnum].
  set (sfx := main.generate_random_string rnd 8) in *.
  assert (pathlib.name (main.rename_asset rnd p)
          = (pathlib.stem p ++ lit "_" ++ sfx) ++ pathlib.suffix p) as Hname.
  { unfold main.rename_asset, pathlib.with_stem, pathlib.with_name.
    by rewrite name_snoc. }
  pose proof (rfind_drop _ _ _ Hi) as Hdot. rewrite <- Hsuf in Hdot.
  assert (length (pathlib.stem p ++ lit "_" ++ sfx) = i + 9) as Hl.
  { rewrite Hstem, !length_app, length_take, Hlen. simpl. lia. }
  assert (length (pathlib.suffix p) = length (pathlib.name p) - i) as Hls
    by (by rewrite Hsuf, length_drop).
  split; [by rewrite Hname, <- !app_assoc|].
  unfold pathlib.stem at 1, pathlib.suffix at 1. rewrite Hname.
  rewrite rfind_app, Hdot, Nat.add_0_r, Hl.
  rewrite length_app, Hl, Hls.
  replace ((0 <? i + 9) && (i + 9 <? i + 9 + (length (pathlib.name p) - i) - 1))
    with true.
  2:{ symmetry. apply andb_true_iff. split; apply Nat.ltb_lt; lia. }
  rewrite <- Hl. by rewrite take_app_length, drop_app_length.
Qed.

Lemma endswith_spec ext s : endswith ext s = true ↔ ∃ t, s = t ++ ext.
Proof.
  unfold endswith. rewrite startswith_spec. split.
  - intros [t Ht]. exists (reverse t).
    apply (inj reverse). by rewrite reverse_app, reverse_involutive.
  - intros [t ->]. exists (reverse t). by rewrite reverse_app.
Qed.

(** A name longer than its extension has that extension as its suffix. *)
Lemma pattern_suffix p ext :
  ext ∈ main.ASSETS_PATTERNS →
  endswith ext (pathlib.name p) = true →
  pathlib.name p ≠ ext →
  pathlib.suffix p = ext.
Proof.
  intros Hext Hends Hne. apply endswith_spec in Hends as [pre Hnm].
  assert (pre ≠ []) as Hpre by (intros ->; by rewrite app_nil_l in Hnm).
  assert (rfind "." ext = Some 0 ∧ 2 ≤ length ext) as [Hdot Hlen].
  { unfold main.ASSETS_PATTERNS in Hext.
    repeat (apply elem_of_cons in Hext as [->|Hext];
            [split; [reflexivity | simpl; lia]|]).
    by apply elem_of_nil in Hext. }
  unfold pathlib.suffix. rewrite Hnm, rfind_app, Hdot, Nat.add_0_r.
  rewrite length_app.
  replace ((0 <? length pre) && (length pre <? length pre + length ext - 1))
    with true.
  2:{ symmetry. apply andb_true_iff. destruct pre; [done|].
      split; apply Nat.ltb_lt; simpl; lia. }
  by rewrite drop_app_length.
Qed.

(** Where a name without suffix ends after the renaming. *)
Lemma renamed_plain rnd p :
  pathlib.suffix p = [] →
  pathlib.name (main.rename_asset rnd p)
  = pathlib.name p ++ lit "_" ++ main.generate_random_string rnd 8.
Proof.
  intros Hsfx. unfold main.rename_asset, pathlib.with_stem, pathlib.with_name.
  rewrite name_snoc, Hsfx, app_nil_r. f_equal.
  rewrite (name_stem_suffix p), Hsfx. by rewrite app_nil_r.
Qed.

End RenameFacts.

(** X1: the random string has the length asked for, whatever that length
    and whatever the random draws, and all its characters are ASCII
    letters or digits; so it holds no dot, no underscore and no path
    separator. *)
Theorem generate_random_string_shape (rnd : nat → nat) (n : nat) :
  length (main.generate_random_string rnd n) = n
  ∧ Forall (λ c, re.is_ascii_alnum c = true) (main.generate_random_string rnd n)
  ∧ Forall (λ c, c ≠ "."%char ∧ c ≠ "_"%char ∧ c ≠ "/"%char)
           (main.generate_random_string rnd n).
Proof.
  destruct (generate_random_string_alnum rnd n) as [Hlen Halnum].
  split; [done|]. split; [done|].
  eapply Forall_impl; [exact Halnum|]. intros c Hc.
  repeat split; intros ->; by vm_compute in Hc.
Qed.

(** X2: for an asset whose name has a suffix, [rename_asset] gives a path
    in the same directory, with the same suffix, whose stem is the old
    stem, an underscore and the eight random characters; the new path is
    never the old one. *)
Theorem rename_asset_keeps_directory_and_suffix (rnd : nat → nat) (asset : Path) :
  pathlib.suffix asset ≠ [] →
  pathlib.parent (main.rename_asset rnd asset) = pathlib.parent asset
  ∧ pathlib.suffix (main.rename_asset rnd asset) = pathlib.suffix asset
  ∧ pathlib.stem (main.rename_asset rnd asset)
    = pathlib.stem asset ++ lit "_" ++ main.generate_random_string rnd 8
  ∧ main.rename_asset rnd asset ≠ asset.
Proof.
  intros Hsfx. destruct (renamed_parts rnd asset Hsfx) as (Hname & Hstem & Hsuf).
  split; [|split; [done|split; [done|]]].
  - unfold main.rename_asset, pathlib.with_stem, pathlib.with_name, pathlib.parent.
    by rewrite removelast_last.
  - intros Heq. rewrite Heq in Hname.
    rewrite (name_stem_suffix asset) in Hname at 1.
    apply (f_equal length) in Hname. rewrite !length_app in Hname.
    simpl in Hname. lia.
Qed.

Lemma rename_asset_keeps_directory_and_suffix_witness :
  pathlib.parent (main.rename_asset (λ i, 7 * i) [lit "game"; lit "a.b.css"])
  = pathlib.parent [lit "game"; lit "a.b.css"]
  ∧ pathlib.suffix (main.rename_asset (λ i, 7 * i) [lit "game"; lit "a.b.css"])
    = pathlib.suffix [lit "game"; lit "a.b.css"]
  ∧ pathlib.stem (main.rename_asset (λ i, 7 * i) [lit "game"; lit "a.b.css"])
    = pathlib.stem [lit "game"; lit "a.b.css"] ++ lit "_"
      ++ main.generate_random_string (λ i, 7 * i) 8
  ∧ main.rename_asset (λ i, 7 * i) [lit "game"; lit "a.b.css"]
    ≠ [lit "game"; lit "a.b.css"].
Proof.
  apply rename_asset_keeps_directory_and_suffix. by vm_compute.
Defined.

(** X3: a file that one of the asset patterns matches is, after
    [rename_asset], matched by the same pattern again, provided its name is
    more than the bare extension.  A file whose name is the bare extension
    (as [.css]) has no suffix for [pathlib]: the random characters come
    last in its new name, which no asset pattern matches any more. *)
Theorem rename_asset_and_patterns (rnd : nat → nat) (asset : Path) (ext : str) :
  ext ∈ main.ASSETS_PATTERNS →
  endswith ext (pathlib.name asset) = true →
  (pathlib.name asset ≠ ext →
     endswith ext (pathlib.name (main.rename_asset rnd asset)) = true)
  ∧ (pathlib.name asset = ext →
     ∀ ext', ext' ∈ main.ASSETS_PATTERNS →
             endswith ext' (pathlib.name (main.rename_asset rnd asset)) = false).
Proof.
  intros Hext Hends. split.
  - intros Hne. pose proof (pattern_suffix _ _ Hext Hends Hne) as Hsuf.
    assert (pathlib.suffix asset ≠ []) as Hsfx.
    { rewrite Hsuf. intros ->. unfold main.ASSETS_PATTERNS in Hext.
      repeat (apply elem_of_cons in Hext as [?|Hext]; [done|]).
      by apply elem_of_nil in Hext. }
    destruct (renamed_parts rnd asset Hsfx) as (Hname & _ & _).
    rewrite Hname, Hsuf. apply endswith_spec.
    exists (pathlib.stem asset ++ lit "_" ++ main.generate_random_string rnd 8).
    by rewrite <- !app_assoc.
  - intros Hbare ext' Hext'.
    assert (pathlib.suffix asset = []) as Hsfx.
    { unfold pathlib.suffix. rewrite Hbare. unfold main.ASSETS_PATTERNS in Hext.
      repeat (apply elem_of_cons in Hext as [->|Hext]; [by vm_compute|]).
      by apply elem_of_nil in Hext. }
    rewrite (renamed_plain rnd asset Hsfx).
    destruct (generate_random_string_alnum rnd 8) as [Hlen Halnum].
    set (sfx := main.generate_random_string rnd 8) in *. clearbody sfx.
    apply not_true_is_false. intros H. apply endswith_spec in H as [t Ht].
    assert (∃ u e, sfx = u ++ "."%char :: e) as (u & e & Hu).
    { assert (∃ e, ext' = "."%char :: e ∧ length e ≤ 4) as (e & -> & Hle).
      { unfold main.ASSETS_PATTERNS in Hext'.
        repeat (apply elem_of_cons in Hext' as [->|Hext'];
                [eexists; split; [reflexivity | simpl; lia]|]).
        by apply elem_of_nil in Hext'. }
      rewrite !app_assoc in Ht.
      assert (length ("."%char :: e) ≤ length sfx) as Hlen' by (simpl; lia).
      remember (length sfx - length ("."%char :: e)) as k eqn:Hk.
      exists (take k sfx), e.
      rewrite <- (take_drop k sfx) in Ht at 1.
      rewrite app_assoc in Ht. apply app_inj_2 in Ht as [_ Ht].
      - rewrite <- Ht. by rewrite take_drop.
      - rewrite length_drop. lia. }
    rewrite Hu in Halnum. apply Forall_app in Halnum as [_ Halnum].
    apply Forall_cons in Halnum as [Hdot _]. by vm_compute in Hdot.
Qed.

Lemma rename_asset_and_patterns_witness :
  (pathlib.name [lit "game"; lit "style.css"] ≠ lit ".css" →
     endswith (lit ".css")
       (pathlib.name (main.rename_asset (λ i, 7 * i) [lit "game"; lit "style.css"]))
     = true)
  ∧ (pathlib.name [lit "game"; lit "style.css"] = lit ".css" →
     ∀ ext', ext' ∈ main.ASSETS_PATTERNS →
             endswith ext'
               (pathlib.name (main.rename_asset (λ i, 7 * i)
                                [lit "game"; lit "style.css"])) = false).
Proof.
  apply rename_asset_and_patterns.
  - unfold main.ASSETS_PATTERNS. left.
  - by vm_compute.
Defined.

Example bare_extension_renamed :
  pathlib.name (main.rename_asset (λ i, 7 * i) [lit "game"; lit ".css"])
  = lit ".css_ahovCJQX".
Proof. reflexivity. Qed.

(* ===================================================================== *)
(** * Paths below a directory *)
(* ===================================================================== *)

Section BelowFacts.

Implicit Types (p q root asset src dst : Path) (rnd : nat → nat).

Lemma is_under_spec root p :
  pathlib.is_under root p = true ↔ ∃ d ds, p = root ++ d :: ds.
Proof.
  revert p. induction root as [|a root IH]; intros [|b p]; simpl.
  - split; [done | intros (? & ? & ?); discriminate].
  - split; [eauto | done].
  - split; [done | intros (? & ? & ?); discriminate].
  - rewrite andb_true_iff, bool_decide_eq_true, IH. split.
    + intros [-> (d & ds & ->)]. eauto.
    + intros (d & ds & Heq). injection Heq as -> ->. eauto.
Qed.

Lemma is_under_irrefl p : pathlib.is_under p p = false.
Proof.
  apply not_true_is_false. intros H. apply is_under_spec in H as (d & ds & H).
  apply (f_equal length) in H. rewrite length_app in H. simpl in H. lia.
Qed.

Lemma is_under_rename rnd root asset :
  pathlib.is_under root asset = true →
  pathlib.is_under root (main.rename_asset rnd asset) = true.
Proof.
  intros H. apply is_under_spec in H as (d & ds & ->). apply is_under_spec.
  unfold main.rename_asset, pathlib.with_stem, pathlib.with_name.
  rewrite removelast_app by done. rewrite <- app_assoc.
  destruct (removelast (d :: ds) ++ [_]) as [|d' ds'] eqn:E.
  - by destruct (removelast (d :: ds)).
  - eauto.
Qed.

(** The archive is no part of its extraction directory. *)
Lemma archive_outside (archive_path : Path) :
  pathlib.is_under (main.extract_path_of archive_path) archive_path = false.
Proof.
  apply not_true_is_false. intros H. apply is_under_spec in H as (d & ds & H).
  apply (f_equal length) in H. revert H.
  unfold main.extract_path_of, pathlib.joinpath, pathlib.parent.
  rewrite !length_app. simpl.
  destruct archive_path as [|x l _] using rev_ind; [simpl; lia|].
  rewrite removelast_last, length_app. simpl. lia.
Qed.


Lemma is_under_length root p :
  pathlib.is_under root p = true → length root < length p.
Proof.
  intros H. apply is_under_spec in H as (d & ds & ->).
  rewrite length_app. simpl. lia.
Qed.

Lemma within_spec root p : os.within root p = true ↔ ∃ rel, p = root ++ rel.
Proof.
  unfold os.within. rewrite orb_true_iff, bool_decide_eq_true, is_under_spec.
  split.
  - intros [->|(d & ds & ->)]; [exists []; by rewrite app_nil_r | eauto].
  - intros ([|d ds] & ->); [left; by rewrite app_nil_r | right; eauto].
Qed.

Lemma within_false root p :
  os.within root p = false ↔ p ≠ root ∧ pathlib.is_under root p = false.
Proof.
  unfold os.within. rewrite orb_false_iff, bool_decide_eq_false. done.
Qed.

(** What lies in a directory below [root] lies below [root]. *)
Lemma is_under_within root d p :
  pathlib.is_under root d = true → os.within d p = true →
  pathlib.is_under root p = true.
Proof.
  rewrite !is_under_spec, within_spec. intros (x & xs & ->) [rel ->].
  exists x, (xs ++ rel). by rewrite <- app_assoc.
Qed.



End BelowFacts.

(* ===================================================================== *)
(** * Renaming on the disk *)
(* ===================================================================== *)

Section RenameOps.

Implicit Types (fs : FS) (p q k src dst root : Path) (node : fsnode).

(** A map read through new keys, when no two keys of the map get the same
    new key. *)
Lemma lookup_rekey (g : Path → Path) fs q node :
  (∀ k1 k2, is_Some (fs !! k1) → is_Some (fs !! k2) → g k1 = g k2 → k1 = k2) →
  (list_to_map ((λ pn : Path * fsnode, (g pn.1, pn.2)) <$> map_to_list fs) : FS)
    !! q = Some node
  ↔ ∃ k, g k = q ∧ fs !! k = Some node.
Proof.
  intros Hinj. rewrite <- elem_of_list_to_map.
  - rewrite list_elem_of_fmap. split.
    + intros ([k n] & [= -> ->] & H). apply elem_of_map_to_list in H. eauto.
    + intros (k & <- & H). exists (k, node). split; [done|].
      by apply elem_of_map_to_list.
  - rewrite <- list_fmap_compose.
    apply NoDup_fmap_2_strong; [|apply NoDup_map_to_list].
    intros [k1 n1] [k2 n2] H1 H2 Heq. simpl in Heq.
    apply elem_of_map_to_list in H1, H2.
    assert (k1 = k2) as -> by (apply Hinj; [by rewrite H1|by rewrite H2|done]).
    congruence.
Qed.

Lemma reroot_within src dst rel : os.reroot src dst (src ++ rel) = dst ++ rel.
Proof.
  unfold os.reroot.
  assert (os.within src (src ++ rel) = true) as -> by (apply within_spec; eauto).
  by rewrite drop_app_length.
Qed.

Lemma reroot_other src dst p : os.within src p = false → os.reroot src dst p = p.
Proof. intros H. unfold os.reroot. by rewrite H. Qed.

(** The moved tree, path by path: what was at or below [src] is at the
    same place at or below [dst], and the rest is where it was. *)
Lemma lookup_move_tree fs src dst q :
  (∀ k, is_Some (fs !! k) → os.within dst k = false) →
  os.within src dst = false →
  os.move_tree fs src dst !! q
  = if os.within dst q then fs !! (src ++ drop (length dst) q)
    else if os.within src q then None else fs !! q.
Proof.
  intros Hfree Hapart.
  assert (∀ k1 k2, is_Some (fs !! k1) → is_Some (fs !! k2) →
                   os.reroot src dst k1 = os.reroot src dst k2 → k1 = k2) as Hinj.
  { intros k1 k2 H1 H2.
    destruct (os.within src k1) eqn:E1; destruct (os.within src k2) eqn:E2.
    - apply within_spec in E1 as [r1 ->]. apply within_spec in E2 as [r2 ->].
      rewrite !reroot_within. intros H. apply app_inv_head in H. by subst.
    - apply within_spec in E1 as [r1 ->].
      rewrite reroot_within, (reroot_other _ _ _ E2). intros <-.
      apply Hfree in H2. exfalso.
      apply not_true_iff_false in H2. apply H2, within_spec. eauto.
    - apply within_spec in E2 as [r2 ->].
      rewrite reroot_within, (reroot_other _ _ _ E1). intros ->.
      apply Hfree in H1. exfalso.
      apply not_true_iff_false in H1. apply H1, within_spec. eauto.
    - by rewrite !reroot_other. }
  apply option_eq. intros node. unfold os.move_tree.
  rewrite (lookup_rekey _ _ _ _ Hinj).
  destruct (os.within dst q) eqn:Eq.
  - apply within_spec in Eq as [rel ->]. rewrite drop_app_length. split.
    + intros (k & Hk & Hn). destruct (os.within src k) eqn:Ek.
      * apply within_spec in Ek as [r ->]. rewrite reroot_within in Hk.
        apply app_inv_head in Hk. by subst.
      * rewrite (reroot_other _ _ _ Ek) in Hk. subst k.
        assert (os.within dst (dst ++ rel) = false) as Hno
          by (apply Hfree; by rewrite Hn).
        apply not_true_iff_false in Hno. exfalso. apply Hno, within_spec. eauto.
    + intros Hn. exists (src ++ rel). by rewrite reroot_within.
  - destruct (os.within src q) eqn:Es.
    + split; [|done]. intros (k & Hk & Hn). exfalso.
      destruct (os.within src k) eqn:Ek.
      * apply within_spec in Ek as [r ->]. rewrite reroot_within in Hk.
        apply not_true_iff_false in Eq. apply Eq, within_spec. eauto.
      * rewrite (reroot_other _ _ _ Ek) in Hk. congruence.
    + split.
      * intros (k & Hk & Hn). destruct (os.within src k) eqn:Ek.
        -- apply within_spec in Ek as [r ->]. rewrite reroot_within in Hk.
           exfalso. apply not_true_iff_false in Eq. apply Eq, within_spec. eauto.
        -- rewrite (reroot_other _ _ _ Ek) in Hk. by subst.
      * intros Hn. exists q. by rewrite reroot_other.
Qed.

Lemma is_empty_dir_spec fs d :
  os.is_empty_dir fs d = true
  ↔ ∀ k, is_Some (fs !! k) → pathlib.is_under d k = false.
Proof.
  unfold os.is_empty_dir. rewrite bool_decide_eq_true, map_Forall_lookup.
  split.
  - intros H k [n Hk]. by apply (H k n).
  - intros H k n Hk. apply H. by rewrite Hk.
Qed.

(** Renaming a regular file. *)
Lemma rename_file fs src dst node :
  fs !! src = Some node → node ≠ Dir →
  dst ≠ src → pathlib.is_under dst src = false →
  os.rename fs src dst
  = match fs !! dst with
    | Some Dir => inl (IsADirectoryError dst)
    | _ => inr (<[dst := node]> (delete src fs))
    end.
Proof.
  intros Hsrc Hnode Hne Habove. unfold os.rename.
  rewrite Hsrc, bool_decide_eq_false_2, Habove by done.
  by destruct node.
Qed.

(** Renaming a directory: when it succeeds, the directory and what lies
    below it are at [dst], and nothing else has changed. *)
Lemma rename_dir fs src dst fs' :
  fs !! src = Some Dir → dst ≠ src →
  os.rename fs src dst = inr fs' →
  (fs !! dst = None ∨ fs !! dst = Some Dir)
  ∧ (∀ k, is_Some (fs !! k) → pathlib.is_under dst k = false)
  ∧ ∀ q, fs' !! q
         = if os.within dst q then fs !! (src ++ drop (length dst) q)
           else if os.within src q then None else fs !! q.
Proof.
  intros Hsrc Hne. unfold os.rename.
  rewrite Hsrc, bool_decide_eq_false_2 by done.
  destruct (pathlib.is_under dst src) eqn:Habove; [done|].
  destruct (pathlib.is_under src dst) eqn:Hbelow; [done|].
  assert (os.within src dst = false) as Hapart by (by apply within_false).
  assert (os.is_empty_dir fs dst = true → inr (os.move_tree (delete dst fs) src dst)
            = (inr fs' : exn + FS) →
          (∀ k, is_Some (fs !! k) → pathlib.is_under dst k = false)
          ∧ ∀ q, fs' !! q
                 = if os.within dst q then fs !! (src ++ drop (length dst) q)
                   else if os.within src q then None else fs !! q) as Hmove.
  { intros Hempty' [= <-].
    pose proof (proj1 (is_empty_dir_spec _ _) Hempty') as Hempty.
    split; [done|]. intros q. rewrite lookup_move_tree; [| |done].
    - destruct (os.within dst q) eqn:Eq.
      + apply lookup_delete_ne. intros Heq.
        apply within_spec in Eq as [rel ->]. rewrite drop_app_length in Heq.
        apply not_true_iff_false in Hapart. apply Hapart, within_spec. eauto.
      + destruct (os.within src q); [done|].
        apply lookup_delete_ne. intros <-.
        apply not_true_iff_false in Eq. apply Eq, within_spec.
        exists []. by rewrite app_nil_r.
    - intros k [n Hk]. apply lookup_delete_Some in Hk as [Hk1 Hk2].
      apply within_false. split; [done|]. apply Hempty. by rewrite Hk2. }
  destruct (fs !! dst) as [[| |]|] eqn:Hdst; [done|done| |].
  - destruct (os.is_empty_dir fs dst) eqn:E; [|done]. intros H.
    destruct (Hmove eq_refl H). by eauto.
  - destruct (os.is_empty_dir fs dst) eqn:E; [|done]. intros H.
    destruct (Hmove eq_refl H). by eauto.
Qed.

(** A rename below [root] changes nothing that is not below [root]. *)
Lemma rename_outside fs src dst fs' root q :
  os.rename fs src dst = inr fs' →
  pathlib.is_under root src = true →
  pathlib.is_under root dst = true →
  pathlib.is_under root q = false →
  fs' !! q = fs !! q.
Proof.
  intros Hren Hsrc Hdst Hq.
  assert (os.within src q = false) as Hqs.
  { apply not_true_is_false. intros H.
    rewrite (is_under_within _ _ _ Hsrc H) in Hq. done. }
  assert (os.within dst q = false) as Hqd.
  { apply not_true_is_false. intros H.
    rewrite (is_under_within _ _ _ Hdst H) in Hq. done. }
  apply within_false in Hqs as [Hqs _]. apply within_false in Hqd as [Hqd Hqd'].
  destruct (decide (dst = src)) as [->|Hne].
  { unfold os.rename in Hren. destruct (fs !! src); [|done].
    rewrite bool_decide_eq_true_2 in Hren by done. by injection Hren as <-. }
  destruct (fs !! src) as [node|] eqn:Hnode;
    [|unfold os.rename in Hren; by rewrite Hnode in Hren].
  destruct (decide (node = Dir)) as [->|Hfile].
  - destruct (rename_dir _ _ _ _ Hnode Hne Hren) as (_ & _ & Hlook).
    rewrite Hlook.
    assert (os.within dst q = false) as -> by (by apply within_false).
    assert (os.within src q = false) as ->; [|done].
    apply within_false. split; [done|].
    apply not_true_is_false. intros H.
    assert (os.within src q = true) as Hw
      by (unfold os.within; rewrite H; apply orb_true_r).
    rewrite (is_under_within _ _ _ Hsrc Hw) in Hq. done.
  - unfold os.rename in Hren. rewrite Hnode in Hren.
    rewrite bool_decide_eq_false_2 in Hren by done.
    destruct (pathlib.is_under dst src); [done|].
    assert (fs' = <[dst := node]> (delete src fs)) as ->.
    { destruct node; [|destruct (fs !! dst) as [[| |]|]; congruence..|done];
        destruct (fs !! dst) as [[| |]|]; congruence. }
    by rewrite lookup_insert_ne, lookup_delete_ne.
Qed.

End RenameOps.

(* ===================================================================== *)
(** * Extracting on the disk *)
(* ===================================================================== *)

Section ExtractOps.

Implicit Types (fs : FS) (p q path pre rest : Path) (node : fsnode)
  (member : Path * fsnode).

(** [makedirs] leaves every node where it is. *)
Lemma makedirs_lookup rest : ∀ fs pre fs' r q node,
  os.makedirs fs pre rest = (fs', r) → fs !! q = Some node → fs' !! q = Some node.
Proof.
  induction rest as [|d rest IH]; intros fs pre fs' r q node H Hq; simpl in H.
  - by injection H as <- _.
  - destruct rest as [|d' rest']; [by injection H as <- _|].
    destruct (fs !! (pre ++ [d])) as [[| |]|] eqn:E;
      [by injection H as <- _ | by injection H as <- _ | |].
    + by eapply IH.
    + eapply IH; [done|]. rewrite lookup_insert_ne; [done|]. congruence.
Qed.


(** A member changes its target at most. *)
Lemma extract_member_lookup fs path member fs' r q node :
  zipfile.extract_member fs path member = (fs', r) →
  fs !! q = Some node →
  q ≠ path ++ zipfile.sanitize member.1 →
  fs' !! q = Some node.
Proof.
  unfold zipfile.extract_member. intros H Hq Hne.
  destruct (os.makedirs fs [] _) as [fs1 r1] eqn:Hmk.
  pose proof (makedirs_lookup _ _ _ _ _ _ _ Hmk Hq) as Hq1.
  destruct r1 as [e|[]]; [by injection H as <- _|].
  destruct (member.2) as [text|data|];
    destruct (fs1 !! (path ++ zipfile.sanitize member.1)) as [[| |]|];
    injection H as <- _; by rewrite ?lookup_insert_ne.
Qed.

(** A member that is extracted is at its target. *)
Lemma extract_member_target fs path member fs' :
  zipfile.extract_member fs path member = (fs', inr ()) →
  fs' !! (path ++ zipfile.sanitize member.1) = Some member.2.
Proof.
  unfold zipfile.extract_member. intros H.
  destruct (os.makedirs fs [] _) as [fs1 r1] eqn:Hmk.
  destruct r1 as [e|[]]; [done|].
  destruct (member.2) as [text|data|];
    destruct (fs1 !! (path ++ zipfile.sanitize member.1)) as [[| |]|] eqn:E;
    try done; injection H as <-; by rewrite ?lookup_insert_eq.
Qed.



(** What was on the disk and is not the target of a member stays, also
    when the extraction fails on the way. *)
Lemma extractall_keeps_others members : ∀ fs path fs' r q node,
  zipfile.extractall fs path members = (fs', r) →
  fs !! q = Some node →
  (∀ m, m ∈ members → q ≠ path ++ zipfile.sanitize m.1) →
  fs' !! q = Some node.
Proof.
  induction members as [|m members IH]; intros fs path fs' r q node H Hq Hne;
    simpl in H.
  - by injection H as <- _.
  - destruct (zipfile.extract_member fs path m) as [fs1 r1] eqn:Hm.
    assert (fs1 !! q = Some node) as Hq1.
    { eapply extract_member_lookup; [done..|]. apply Hne. left. }
    destruct r1 as [e|[]]; [by injection H as <- _|].
    apply (IH fs1 path fs' r q node H Hq1).
    intros m' Hm'. apply Hne. by right.
Qed.



(** Members with different targets are all delivered. *)
Lemma extractall_delivers members : ∀ fs path fs',
  zipfile.extractall fs path members = (fs', inr ()) →
  NoDup (zipfile.sanitize <$> members.*1) →
  ∀ m, m ∈ members → fs' !! (path ++ zipfile.sanitize m.1) = Some m.2.
Proof.
  induction members as [|m0 members IH]; intros fs path fs' H Hnd m Hm;
    simpl in H; [by apply elem_of_nil in Hm|].
  destruct (zipfile.extract_member fs path m0) as [fs1 r1] eqn:Hm0.
  destruct r1 as [e|[]]; [done|].
  rewrite !fmap_cons in Hnd. apply NoDup_cons in Hnd as [Hfresh Hnd].
  apply elem_of_cons in Hm as [->|Hm].
  - pose proof (extract_member_target _ _ _ _ Hm0) as Hat.
    apply (extractall_keeps_others members fs1 path fs' (inr ()) _ _ H Hat).
    intros m' Hm' Heq. apply app_inv_head in Heq.
    apply Hfresh. rewrite Heq.
    apply list_elem_of_fmap. exists m'.1. split; [done|].
    apply list_elem_of_fmap. eauto.
  - by eapply IH.
Qed.


End ExtractOps.

(* ===================================================================== *)
(** * The scanner and the loop that consumes it *)
(* ===================================================================== *)

Section ScanFacts.

Implicit Types (fs : FS) (f g asset root : Path) (files : list Path).

Lemma elem_of_rglob fs root ext f :
  f ∈ os.rglob fs root ext
  ↔ is_Some (fs !! f)
    ∧ pathlib.is_under root f = true
    ∧ endswith ext (pathlib.name f) = true.
Proof.
  unfold os.rglob. rewrite list_elem_of_fmap. split.
  - intros ([p n] & -> & H). apply list_elem_of_filter in H as [HP H].
    apply elem_of_map_to_list in H. simpl in *.
    apply andb_true_iff in HP as [? ?]. by rewrite H.
  - intros ([n Hf] & H1 & H2). exists (f, n). split; [done|].
    apply list_elem_of_filter. split.
    + simpl. by rewrite H1, H2.
    + by apply elem_of_map_to_list.
Qed.

Lemma NoDup_rglob fs root ext : NoDup (os.rglob fs root ext).
Proof.
  unfold os.rglob. apply (sublist_NoDup _ (map_to_list fs).*1).
  - apply NoDup_fst_map_to_list.
  - apply fmap_sublist, sublist_filter.
Qed.

Lemma endswith_last ext c s :
  endswith (ext ++ [c]) s = true → last s = Some c.
Proof.
  unfold endswith. rewrite reverse_snoc.
  destruct s as [|a s _] using rev_ind; [done|].
  rewrite reverse_snoc, last_snoc. simpl.
  intros H. apply andb_true_iff in H as [H _].
  apply bool_decide_eq_true in H. by subst.
Qed.

Lemma elem_of_source_files fs root f :
  f ∈ main.source_files fs root
  ↔ is_Some (fs !! f)
    ∧ pathlib.is_under root f = true
    ∧ (endswith (lit ".html") (pathlib.name f) = true
       ∨ endswith (lit ".js") (pathlib.name f) = true
       ∨ endswith (lit ".json") (pathlib.name f) = true).
Proof.
  unfold main.source_files. rewrite !elem_of_app, !elem_of_rglob. tauto.
Qed.

Lemma NoDup_source_files fs root : NoDup (main.source_files fs root).
Proof.
  unfold main.source_files.
  apply NoDup_app. split; [apply NoDup_rglob|]. split.
  - intros f H1 H2. apply elem_of_rglob in H1 as (_ & _ & H1).
    apply (endswith_last (lit ".htm") "l") in H1.
    apply elem_of_app in H2 as [H2|H2]; apply elem_of_rglob in H2 as (_ & _ & H2).
    + apply (endswith_last (lit ".j") "s") in H2. congruence.
    + apply (endswith_last (lit ".jso") "n") in H2. congruence.
  - apply NoDup_app. split; [apply NoDup_rglob|]. split; [|apply NoDup_rglob].
    intros f H1 H2. apply elem_of_rglob in H1 as (_ & _ & H1).
    apply elem_of_rglob in H2 as (_ & _ & H2).
    apply (endswith_last (lit ".j") "s") in H1.
    apply (endswith_last (lit ".jso") "n") in H2. congruence.
Qed.

(** What the scanner says of a file depends on that file only. *)
Lemma scan_file_file fs asset f text :
  fs !! f = Some (File text) →
  main.scan_file fs asset f
  = inr (main.lines_match
           (re.NOT_WORD :: (re.LITERAL <$> main.asset_name asset) ++ [re.NOT_WORD])
           text).
Proof.
  intros Hf. unfold main.scan_file, os.read_text.
  by rewrite asset_regex_compiles, Hf.
Qed.

Lemma hit_file fs asset f text :
  fs !! f = Some (File text) →
  hit fs asset f
  = main.lines_match
      (re.NOT_WORD :: (re.LITERAL <$> main.asset_name asset) ++ [re.NOT_WORD])
      text.
Proof.
  intros Hf. unfold hit. rewrite (scan_file_file _ _ _ _ Hf).
  by destruct (main.lines_match _ _).
Qed.

Lemma scan_file_hit fs asset f text :
  fs !! f = Some (File text) → main.scan_file fs asset f = inr (hit fs asset f).
Proof.
  intros Hf. by rewrite (hit_file _ _ _ _ Hf), (scan_file_file _ _ _ _ Hf).
Qed.

Lemma filter_hit_ext fs fs' asset files :
  (∀ g, g ∈ files → fs' !! g = fs !! g) →
  filter (λ g, hit fs' asset g = true) files
  = filter (λ g, hit fs asset g = true) files.
Proof.
  induction files as [|g files IH]; intros Hagree; [done|].
  rewrite !filter_cons.
  assert (hit fs' asset g = hit fs asset g) as ->.
  { unfold hit, main.scan_file, os.read_text. rewrite Hagree; [done|]. left. }
  rewrite IH; [done|]. intros ? ?. apply Hagree. by right.
Qed.

Lemma scan_file_unreadable fs asset u e :
  os.read_text fs u = inl e → main.scan_file fs asset u = inl e.
Proof.
  intros H. unfold main.scan_file. by rewrite asset_regex_compiles, H.
Qed.

Lemma scan_file_agree fs fs' asset g :
  fs' !! g = fs !! g → main.scan_file fs' asset g = main.scan_file fs asset g.
Proof. intros H. unfold main.scan_file, os.read_text. by rewrite H. Qed.

(** The files, cut at the first one that cannot be read as text. *)
Lemma readable_split fs files :
  ∃ pre rest,
    files = pre ++ rest
    ∧ (∀ f, f ∈ pre → ∃ text, fs !! f = Some (File text))
    ∧ (rest = [] ∨ ∃ u rest' e, rest = u :: rest' ∧ os.read_text fs u = inl e).
Proof.
  induction files as [|f files (pre & rest & -> & Hpre & Hrest)].
  - exists [], []. split; [done|]. split; [|by left].
    intros ? H. by apply elem_of_nil in H.
  - destruct (os.read_text fs f) as [e|text] eqn:E.
    + exists [], (f :: pre ++ rest). split; [done|]. split.
      * intros ? H. by apply elem_of_nil in H.
      * right. eauto.
    + exists (f :: pre), rest. split; [done|]. split; [|done].
      intros g Hg. apply elem_of_cons in Hg as [->|Hg]; [|by apply Hpre].
      unfold os.read_text in E. destruct (fs !! f) as [[| |]|]; try done. eauto.
Qed.

(** The generator on a quiet disk, as far as the files can be read: it
    yields those that it matches, and goes on. *)
Lemma scan_uses_prefix fs asset pre rest :
  ∀ found,
    (∀ f, f ∈ pre → ∃ text, fs !! f = Some (File text)) →
    main.scan_uses fs asset (pre ++ rest) found
    = (uses ← main.scan_uses fs asset rest
                (match filter (λ f, hit fs asset f = true) pre with
                 | [] => found
                 | _ => true
                 end);
       mret (filter (λ f, hit fs asset f = true) pre ++ uses)).
Proof.
  induction pre as [|f pre IH]; intros found Hpre.
  - simpl. by destruct (main.scan_uses fs asset rest found).
  - destruct (Hpre f) as [text Hf]; [left|].
    assert (∀ g, g ∈ pre → ∃ text, fs !! g = Some (File text)) as Hrest
      by (intros; apply Hpre; by right).
    rewrite <- app_comm_cons. simpl main.scan_uses.
    rewrite (scan_file_hit _ _ _ _ Hf), filter_cons. simpl.
    destruct (hit fs asset f) eqn:E.
    + rewrite decide_True by done. rewrite IH by done.
      assert (match filter (λ f0, hit fs asset f0 = true) pre with
              | [] => true
              | _ => true
              end = true) as -> by (by destruct (filter _ pre)).
      by destruct (main.scan_uses fs asset rest true).
    + rewrite decide_False by done. by apply IH.
Qed.

(** The generator run on a quiet disk yields the files that it matches. *)
Lemma scan_uses_run fs asset files found :
  (∀ f, f ∈ files → ∃ text, fs !! f = Some (File text)) →
  main.scan_uses fs asset files found
  = match filter (λ f, hit fs asset f = true) files with
    | [] => if found then inr [] else inl (main.not_found asset)
    | uses => inr uses
    end.
Proof.
  intros Hfiles. rewrite <- (app_nil_r files) at 1.
  rewrite scan_uses_prefix by done. simpl.
  destruct (filter _ files) as [|u us]; simpl.
  - by destruct found.
  - by rewrite app_nil_r.
Qed.

(** The loop of [main] over the generator, as far as the files can be
    read: it writes the files that the generator would yield on the disk
    as it was, in that order, each with the name replaced, touches nothing
    else, and goes on. *)
Lemma rewrite_uses_prefix asset new_asset pre rest :
  ∀ found fs tr,
    NoDup pre →
    (∀ f, f ∈ pre → ∃ text, fs !! f = Some (File text)) →
    ∃ fs',
      main.rewrite_uses asset new_asset (pre ++ rest) found fs tr
      = main.rewrite_uses asset new_asset rest
          (match filter (λ f, hit fs asset f = true) pre with
           | [] => found
           | _ => true
           end)
          fs' (tr ++ (EvWrite <$> filter (λ f, hit fs asset f = true) pre))
      ∧ (∀ g, g ∉ pre → fs' !! g = fs !! g)
      ∧ (∀ f text, f ∈ pre → fs !! f = Some (File text) →
           fs' !! f
           = Some (File (if hit fs asset f
                         then str_replace text (main.old_asset_name asset)
                                          (main.new_asset_name new_asset)
                         else text))).
Proof.
  induction pre as [|f pre IH]; intros found fs tr Hnd Hpre.
  - exists fs. simpl. rewrite app_nil_r. split; [done|]. split; [done|].
    intros ? ? H. by apply elem_of_nil in H.
  - apply NoDup_cons in Hnd as [Hf_new Hnd].
    destruct (Hpre f) as [text Hf]; [left|].
    assert (∀ g, g ∈ pre → ∃ text, fs !! g = Some (File text)) as Hrest
      by (intros; apply Hpre; by right).
    rewrite <- app_comm_cons. simpl main.rewrite_uses.
    rewrite (scan_file_hit _ _ _ _ Hf), filter_cons.
    destruct (hit fs asset f) eqn:E.
    + rewrite decide_True by done.
      rewrite (replace_asset_uses_file fs f asset new_asset text Hf).
      set (fs1 := <[f := File _]> fs).
      assert (∀ g, g ∈ pre → fs1 !! g = fs !! g) as Hagree.
      { intros g Hg. apply lookup_insert_ne. by intros ->. }
      destruct (IH true fs1 (tr ++ [EvWrite f]) Hnd) as (fs' & Hrun & Hout & Hin).
      { intros g Hg. rewrite Hagree by done. by apply Hrest. }
      rewrite (filter_hit_ext fs fs1 asset pre Hagree) in Hrun.
      exists fs'. split; [|split].
      * rewrite Hrun, <- app_assoc. simpl. f_equal.
        by destruct (filter _ pre).
      * intros g Hg. apply not_elem_of_cons in Hg as [Hne Hg].
        rewrite Hout by done. by apply lookup_insert_ne.
      * intros g t Hg Hgt. apply elem_of_cons in Hg as [->|Hg].
        -- rewrite Hout by done. unfold fs1. rewrite lookup_insert_eq.
           rewrite Hf in Hgt. injection Hgt as <-. by rewrite E.
        -- assert (hit fs1 asset g = hit fs asset g) as <-.
           { unfold hit. by rewrite (scan_file_agree fs fs1) by (by apply Hagree). }
           apply Hin; [done|]. by rewrite Hagree.
    + rewrite decide_False by done.
      destruct (IH found fs tr Hnd Hrest) as (fs' & Hrun & Hout & Hin).
      exists fs'. split; [done|]. split.
      * intros g Hg. apply not_elem_of_cons in Hg as [_ Hg]. by apply Hout.
      * intros g t Hg Hgt. apply elem_of_cons in Hg as [->|Hg].
        -- rewrite Hout by done. by rewrite E.
        -- by apply Hin.
Qed.

(** The same loop when every file can be read. *)
Lemma rewrite_uses_run asset new_asset files :
  ∀ found fs tr,
    NoDup files →
    (∀ f, f ∈ files → ∃ text, fs !! f = Some (File text)) →
    ∃ fs',
      main.rewrite_uses asset new_asset files found fs tr
      = Outcome fs'
          (tr ++ (EvWrite <$> filter (λ f, hit fs asset f = true) files))
          (match filter (λ f, hit fs asset f = true) files with
           | [] => if found then inr () else inl (main.not_found asset)
           | _ => inr ()
           end)
      ∧ (∀ g, g ∉ files → fs' !! g = fs !! g)
      ∧ (∀ f text, f ∈ files → fs !! f = Some (File text) →
           fs' !! f
           = Some (File (if hit fs asset f
                         then str_replace text (main.old_asset_name asset)
                                          (main.new_asset_name new_asset)
                         else text))).
Proof.
  intros found fs tr Hnd Hfiles.
  destruct (rewrite_uses_prefix asset new_asset files [] found fs tr Hnd Hfiles)
    as (fs' & Hrun & Hout & Hin).
  exists fs'. split; [|done]. rewrite app_nil_r in Hrun. rewrite Hrun. simpl.
  by destruct (filter _ files).
Qed.

End ScanFacts.

Section AssetStep.

Implicit Types (fs : FS) (f g asset root : Path) (rnd : nat → nat).

Lemma search_for_asset_uses_run fs root asset :
  sources_are_text fs root →
  main.search_for_asset_uses fs root asset
  = match filter (λ f, hit fs asset f = true) (main.source_files fs root) with
    | [] => inl (main.not_found asset)
    | uses => inr uses
    end.
Proof.
  intros Htext. unfold main.search_for_asset_uses. by rewrite scan_uses_run.
Qed.

(** The scanner stops at the first path that cannot be read as text, with
    the exception of [open] or of [readlines]. *)
Lemma search_for_asset_uses_stops fs root asset pre u rest e :
  main.source_files fs root = pre ++ u :: rest →
  (∀ f, f ∈ pre → ∃ text, fs !! f = Some (File text)) →
  os.read_text fs u = inl e →
  main.search_for_asset_uses fs root asset = inl e.
Proof.
  intros Hsplit Hpre Hu. unfold main.search_for_asset_uses.
  rewrite Hsplit, scan_uses_prefix by done. simpl.
  by rewrite (scan_file_unreadable _ _ _ _ Hu).
Qed.

(** The body of the loop of [main] on any disk.  The scanner goes through
    the source files; the files it finds are rewritten one after the other
    ([written], and the disk [fs1] after the rewrites).  Either it comes
    to a path that cannot be read as text, and the body ends there on that
    exception; or every source file is read, and the body raises when
    nothing was found, and else renames the asset on the disk [fs1]. *)
Lemma process_asset_any rnd root asset fs :
  ∃ written fs1,
    written `sublist_of` main.source_files fs root
    ∧ (∀ f, f ∈ written → hit fs asset f = true)
    ∧ (∀ g, g ∉ written → fs1 !! g = fs !! g)
    ∧ (∀ f text, f ∈ written → fs !! f = Some (File text) →
         fs1 !! f
         = Some (File (str_replace text (main.old_asset_name asset)
                         (main.new_asset_name (main.rename_asset rnd asset)))))
    ∧ ((∃ pre u rest e,
          main.source_files fs root = pre ++ u :: rest
          ∧ (∀ f, f ∈ pre → ∃ text, fs !! f = Some (File text))
          ∧ os.read_text fs u = inl e
          ∧ written = filter (λ f, hit fs asset f = true) pre
          ∧ main.process_asset rnd root asset fs
            = Outcome fs1 (EvWrite <$> written) (inl e))
       ∨ (sources_are_text fs root
          ∧ written = filter (λ f, hit fs asset f = true)
                             (main.source_files fs root)
          ∧ main.process_asset rnd root asset fs
            = match written with
              | [] => Outcome fs1 [] (inl (main.not_found asset))
              | _ =>
                  match os.rename fs1 asset (main.rename_asset rnd asset) with
                  | inl e => Outcome fs1 (EvWrite <$> written) (inl e)
                  | inr fs2 =>
                      Outcome fs2
                        ((EvWrite <$> written)
                         ++ [EvRename asset (main.rename_asset rnd asset)])
                        (inr ())
                  end
              end)).
Proof.
  destruct (readable_split fs (main.source_files fs root))
    as (pre & rest & Hsplit & Hpre & Hrest).
  pose proof (NoDup_source_files fs root) as Hnd. rewrite Hsplit in Hnd.
  apply NoDup_app in Hnd as (Hnd & _ & _).
  destruct (rewrite_uses_prefix asset (main.rename_asset rnd asset) pre rest
              false fs [] Hnd Hpre) as (fs1 & Hrun & Hout & Hin).
  rewrite app_nil_l in Hrun.
  exists (filter (λ f, hit fs asset f = true) pre), fs1.
  split; [|split; [|split; [|split]]].
  - rewrite Hsplit. etrans; [apply sublist_filter|]. by apply sublist_inserts_r.
  - intros f Hf. by apply list_elem_of_filter in Hf as [? _].
  - intros g Hg. destruct (decide (g ∈ pre)) as [Hgp|Hgp]; [|by apply Hout].
    destruct (Hpre g Hgp) as [text Hgt]. rewrite (Hin g text Hgp Hgt), Hgt.
    destruct (hit fs asset g) eqn:E; [|done].
    exfalso. apply Hg. by apply list_elem_of_filter.
  - intros f text Hf Hft. apply list_elem_of_filter in Hf as [Hhit Hf].
    by rewrite (Hin f text Hf Hft), Hhit.
  - destruct Hrest as [->|(u & rest' & e & -> & Hu)].
    + right. rewrite app_nil_r in Hsplit, Hrun.
      split; [intros f Hf; apply Hpre; by rewrite <- Hsplit|].
      split; [by rewrite Hsplit|].
      unfold main.process_asset. rewrite Hsplit, Hrun. simpl.
      destruct (filter _ pre) as [|w ws]; [done|]. simpl.
      by destruct (os.rename fs1 asset _).
    + left. exists pre, u, rest', e. split; [done|]. split; [done|].
      split; [done|]. split; [done|].
      unfold main.process_asset. rewrite Hsplit, Hrun. simpl.
      assert (u ∉ pre) as Hup.
      { intros Hin'. destruct (Hpre u Hin') as [text Ht].
        unfold os.read_text in Hu. by rewrite Ht in Hu. }
      rewrite (scan_file_agree fs fs1) by (by apply Hout).
      by rewrite (scan_file_unreadable _ _ _ _ Hu).
Qed.


Lemma hit_readable fs asset f :
  hit fs asset f = true → ∃ text, fs !! f = Some (File text).
Proof.
  unfold hit, main.scan_file, os.read_text. rewrite asset_regex_compiles.
  destruct (fs !! f) as [[| |]|]; try done. eauto.
Qed.

(** The body of the loop when every source file holds text: the uses are
    those that the scanner finds on the disk as the body found it; with no
    use the body raises at once and the disk is as before; otherwise every
    use is rewritten, and only then is the asset renamed. *)
Lemma process_asset_run rnd root asset fs :
  sources_are_text fs root →
  ∃ fs',
    (∀ g, g ∉ main.source_files fs root → fs' !! g = fs !! g)
    ∧ (∀ f text, f ∈ main.source_files fs root → fs !! f = Some (File text) →
         fs' !! f
         = Some (File (if hit fs asset f
                       then str_replace text (main.old_asset_name asset)
                              (main.new_asset_name (main.rename_asset rnd asset))
                       else text)))
    ∧ main.process_asset rnd root asset fs
      = match filter (λ f, hit fs asset f = true) (main.source_files fs root) with
        | [] => Outcome fs [] (inl (main.not_found asset))
        | uses =>
            match os.rename fs' asset (main.rename_asset rnd asset) with
            | inl e => Outcome fs' (EvWrite <$> uses) (inl e)
            | inr fs'' =>
                Outcome fs''
                  ((EvWrite <$> uses)
                   ++ [EvRename asset (main.rename_asset rnd asset)])
                  (inr ())
            end
        end.
Proof.
  intros Htext.
  destruct (rewrite_uses_run asset (main.rename_asset rnd asset)
              (main.source_files fs root) false fs [])
    as (fs' & Hrun & Hout & Hin).
  { apply NoDup_source_files. }
  { done. }
  exists fs'. split; [done|]. split; [done|].
  unfold main.process_asset. rewrite Hrun. simpl.
  destruct (filter _ (main.source_files fs root)) as [|u us] eqn:Hu; simpl.
  - f_equal. apply map_eq. intros g.
    destruct (decide (g ∈ main.source_files fs root)) as [Hg|Hg].
    + destruct (Htext _ Hg) as [text Hgt].
      rewrite (Hin g text Hg Hgt), Hgt.
      destruct (hit fs asset g) eqn:E; [|done].
      assert (g ∈ filter (λ f, hit fs asset f = true) (main.source_files fs root))
        as Hmem by (by apply list_elem_of_filter).
      rewrite Hu in Hmem. by apply elem_of_nil in Hmem.
    + by apply Hout.
  - by destruct (os.rename fs' asset _).
Qed.

End AssetStep.

(* ===================================================================== *)
(** * An asset without references (C5); rewrites before the rename (C6) *)
(* ===================================================================== *)

Section UseFacts.

Implicit Types (fs : FS) (f asset root : Path).

(** A file is found by the scanner when one of its lines holds the
    reference name as a whole word. *)
Lemma hit_spec fs asset f :
  hit fs asset f = true
  ↔ ∃ text line, fs !! f = Some (File text) ∧ line ∈ readlines text
                 ∧ whole_word_in (main.asset_name asset) line.
Proof.
  split.
  - intros H. destruct (hit_readable _ _ _ H) as [text Hf].
    rewrite (hit_file _ _ _ _ Hf) in H.
    apply lines_match_spec in H as (line & Hline & Hs).
    apply search_whole_word in Hs. eauto.
  - intros (text & line & Hf & Hline & Hw). rewrite (hit_file _ _ _ _ Hf).
    apply lines_match_spec. exists line. split; [done|].
    by apply search_whole_word.
Qed.

(** Nothing written: the disk is as it was. *)
Lemma nothing_written fs fs1 :
  (∀ g : Path, g ∉ ([] : list Path) → fs1 !! g = fs !! g) → fs1 = fs.
Proof. intros H. apply map_eq. intros g. apply H, not_elem_of_nil. Qed.

End UseFacts.

(** C5, as the code has it: when no line of any [.html], [.js] or [.json]
    file below the extraction root holds the reference name of an asset as
    a whole word, the loop body of [main] ends on an exception with the
    disk as it was and nothing done to it, so the asset is not renamed.
    When the paths with these names are all regular files that hold text,
    the exception is the [FileNotFoundError] that the scanner raises once
    it is consumed, with a message that contains the path of the asset. *)
Theorem orphan_asset_not_renamed (rnd : nat → nat) (extract_path asset : Path)
    (fs : FS) :
  (∀ f text line,
     fs !! f = Some (File text) →
     pathlib.is_under extract_path f = true →
     endswith (lit ".html") (pathlib.name f) = true
     ∨ endswith (lit ".js") (pathlib.name f) = true
     ∨ endswith (lit ".json") (pathlib.name f) = true →
     line ∈ readlines text →
     ¬ whole_word_in (main.asset_name asset) line) →
  (∃ e, main.process_asset rnd extract_path asset fs = Outcome fs [] (inl e))
  ∧ (sources_are_text fs extract_path →
     ∃ message,
       main.search_for_asset_uses fs extract_path asset
       = inl (FileNotFoundError message)
       ∧ occurs (pathlib.to_str asset) message
       ∧ main.process_asset rnd extract_path asset fs
         = Outcome fs [] (inl (FileNotFoundError message))).
Proof.
  intros Hnone.
  assert (∀ f, f ∈ main.source_files fs extract_path → hit fs asset f = false)
    as Hmiss.
  { intros f Hf. apply not_true_is_false. intros Hhit.
    apply hit_spec in Hhit as (text & line & Hft & Hline & Hw).
    apply elem_of_source_files in Hf as (_ & Hunder & Hext).
    by eapply Hnone. }
  assert (∀ files, files `sublist_of` main.source_files fs extract_path →
                   filter (λ f, hit fs asset f = true) files = []) as Hu.
  { intros files Hsub. destruct (filter _ files) as [|f us] eqn:Hu; [done|].
    assert (f ∈ filter (λ f, hit fs asset f = true) files) as Hmem
      by (rewrite Hu; left).
    apply list_elem_of_filter in Hmem as [Hhit Hf].
    rewrite Hmiss in Hhit; [done|]. by eapply elem_of_sublist. }
  destruct (process_asset_any rnd extract_path asset fs)
    as (written & fs1 & Hsub & _ & Hout & _ & Hcases).
  assert (written = []) as ->.
  { destruct Hcases as [(pre & u & rest & e & Hsplit & _ & _ & -> & _)
                       |(_ & -> & _)]; apply Hu; [|done].
    rewrite Hsplit. by apply sublist_inserts_r. }
  apply nothing_written in Hout as ->.
  split.
  - destruct Hcases as [(pre & u & rest & e & _ & _ & _ & _ & ->)|(_ & _ & ->)];
      eauto.
  - intros Htext. eexists. split; [|split].
    + rewrite search_for_asset_uses_run, Hu by done. reflexivity.
    + eexists _, _. reflexivity.
    + destruct (process_asset_run rnd extract_path asset fs Htext)
        as (fs' & _ & _ & ->).
      by rewrite Hu.
Qed.

Lemma orphan_asset_not_renamed_witness :
  (∃ e, main.process_asset (λ i, 7 * i) [lit "game"]
          [lit "game"; lit "images"; lit "orphan.png"] demo_disk
        = Outcome demo_disk [] (inl e))
  ∧ ∃ message,
      main.search_for_asset_uses demo_disk [lit "game"]
        [lit "game"; lit "images"; lit "orphan.png"]
      = inl (FileNotFoundError message)
      ∧ occurs (pathlib.to_str [lit "game"; lit "images"; lit "orphan.png"]) message
      ∧ main.process_asset (λ i, 7 * i) [lit "game"]
          [lit "game"; lit "images"; lit "orphan.png"] demo_disk
        = Outcome demo_disk [] (inl (FileNotFoundError message)).
Proof.
  destruct (orphan_asset_not_renamed (λ i, 7 * i) [lit "game"]
              [lit "game"; lit "images"; lit "orphan.png"] demo_disk)
    as [Hbody Hscan].
  - intros f text line Hf _ Hext Hline Hw.
    assert (f ∈ main.source_files demo_disk [lit "game"]) as Hsrc.
    { apply elem_of_source_files. split; [by rewrite Hf|].
      split; [|done].
      unfold demo_disk in Hf.
      repeat (apply lookup_insert_Some in Hf as [[<- Hf]|[_ Hf]]; [done|]).
      by apply lookup_singleton_Some in Hf as [<- _]. }
    vm_compute in Hsrc. apply list_elem_of_singleton in Hsrc as ->.
    vm_compute in Hf. injection Hf as <-.
    vm_compute in Hline. apply list_elem_of_singleton in Hline as ->.
    apply search_whole_word in Hw. by vm_compute in Hw.
  - split; [exact Hbody|]. apply Hscan.
    intros f Hf. vm_compute in Hf. apply list_elem_of_singleton in Hf as ->.
    eexists. by vm_compute.
Defined.

(** C5, where the claim fails: nothing refers to [orphan.png], and among
    the paths that are named like source files there is a directory, or a
    file that is not UTF-8.  The scanner raises what [open] or the decoder
    raises, not the error that names the asset.  Nothing is done to the
    disk, and the asset keeps its name. *)
Lemma orphan_asset_other_error :
  (∀ f text line,
     dir_source_disk !! f = Some (File text) → line ∈ readlines text →
     ¬ whole_word_in (main.asset_name [lit "game"; lit "orphan.png"]) line)
  ∧ main.search_for_asset_uses dir_source_disk [lit "game"]
      [lit "game"; lit "orphan.png"]
    = inl (IsADirectoryError [lit "game"; lit "data.json"])
  ∧ result (main.process_asset (λ i, 7 * i) [lit "game"]
              [lit "game"; lit "orphan.png"] dir_source_disk)
    = inl (IsADirectoryError [lit "game"; lit "data.json"])
  ∧ trace (main.process_asset (λ i, 7 * i) [lit "game"]
             [lit "game"; lit "orphan.png"] dir_source_disk) = []
  ∧ disk (main.process_asset (λ i, 7 * i) [lit "game"]
            [lit "game"; lit "orphan.png"] dir_source_disk)
      !! [lit "game"; lit "orphan.png"] = Some (Blob PNG)
  ∧ (∀ f text line,
       blob_source_disk !! f = Some (File text) → line ∈ readlines text →
       ¬ whole_word_in (main.asset_name [lit "game"; lit "orphan.png"]) line)
  ∧ main.search_for_asset_uses blob_source_disk [lit "game"]
      [lit "game"; lit "orphan.png"]
    = inl UnicodeDecodeError
  ∧ result (main.process_asset (λ i, 7 * i) [lit "game"]
              [lit "game"; lit "orphan.png"] blob_source_disk)
    = inl UnicodeDecodeError
  ∧ trace (main.process_asset (λ i, 7 * i) [lit "game"]
             [lit "game"; lit "orphan.png"] blob_source_disk) = []
  ∧ disk (main.process_asset (λ i, 7 * i) [lit "game"]
            [lit "game"; lit "orphan.png"] blob_source_disk)
      !! [lit "game"; lit "orphan.png"] = Some (Blob PNG).
Proof.
  assert (∀ text line,
            File (lit "<img src='x.png'>") = File text → line ∈ readlines text →
            ¬ whole_word_in (main.asset_name [lit "game"; lit "orphan.png"]) line)
    as Hpage.
  { intros text line [= <-] Hline Hw.
    vm_compute in Hline. apply list_elem_of_singleton in Hline as ->.
    apply search_whole_word in Hw. by vm_compute in Hw. }
  split; [|split; [by vm_compute|]; split; [by vm_compute|];
           split; [by vm_compute|]; split; [by vm_compute|];
           split; [|split; [by vm_compute|]; split; [by vm_compute|];
                    split; by vm_compute]].
  - intros f text line Hf. unfold dir_source_disk in Hf.
    repeat (apply lookup_insert_Some in Hf as [[_ Hf]|[_ Hf]];
            [by (discriminate || eapply Hpage)|]).
    by apply lookup_singleton_Some in Hf as [_ ?].
  - intros f text line Hf. unfold blob_source_disk in Hf.
    repeat (apply lookup_insert_Some in Hf as [[_ Hf]|[_ Hf]];
            [by (discriminate || eapply Hpage)|]).
    by apply lookup_singleton_Some in Hf as [_ ?].
Qed.

(** C6: in the loop body of [main], for every asset, the rename comes
    after the rewrites and finds them done.  There is a list of source
    files, each with a line that holds the reference name as a whole word,
    and a disk on which each of them holds its former text with every
    occurrence of the old name replaced by the new one, and on which
    nothing else has changed.  When the body ends normally, the list is
    what the scanner yields, the rename is applied to that disk, and the
    disk operations are the rewrites of the list, in order, and then, last,
    the rename.  When the body ends on an exception, the disk is left as
    the rewrites made it and nothing was renamed. *)
Theorem rewrites_precede_rename (rnd : nat → nat) (extract_path asset : Path)
    (fs : FS) :
  pathlib.name asset ≠ [] →
  ∃ written before_rename,
    written `sublist_of` main.source_files fs extract_path
    ∧ (∀ f, f ∈ written →
         ∃ text text',
           fs !! f = Some (File text)
           ∧ (∃ line, line ∈ readlines text
                      ∧ whole_word_in (main.asset_name asset) line)
           ∧ before_rename !! f = Some (File text')
           ∧ replaced (main.old_asset_name asset)
                      (main.new_asset_name (main.rename_asset rnd asset))
                      text text')
    ∧ (∀ g, g ∉ written → before_rename !! g = fs !! g)
    ∧ match result (main.process_asset rnd extract_path asset fs) with
      | inr _ =>
          main.search_for_asset_uses fs extract_path asset = inr written
          ∧ os.rename before_rename asset (main.rename_asset rnd asset)
            = inr (disk (main.process_asset rnd extract_path asset fs))
          ∧ trace (main.process_asset rnd extract_path asset fs)
            = (EvWrite <$> written)
              ++ [EvRename asset (main.rename_asset rnd asset)]
      | inl _ =>
          disk (main.process_asset rnd extract_path asset fs) = before_rename
          ∧ trace (main.process_asset rnd extract_path asset fs)
            = EvWrite <$> written
      end.
Proof.
  intros Hname.
  destruct (process_asset_any rnd extract_path asset fs)
    as (written & fs1 & Hsub & Hhit & Hout & Hin & Hcases).
  exists written, fs1. split; [done|]. split; [|split; [done|]].
  - intros f Hf.
    destruct (proj1 (hit_spec _ _ _) (Hhit f Hf))
      as (text & line & Hft & Hline & Hw).
    exists text. eexists. split; [done|]. split; [eauto|].
    split; [by apply Hin|].
    by apply str_replace_replaced, old_asset_name_nonempty.
  - destruct Hcases as [(pre & u & rest & e & _ & _ & _ & _ & ->)
                       |(Htext & Hw & ->)]; [done|].
    rewrite search_for_asset_uses_run, <- Hw by done.
    destruct written as [|w ws]; [done|].
    by destruct (os.rename fs1 asset _).
Qed.

Lemma rewrites_precede_rename_witness :
  ∃ written before_rename,
    written `sublist_of` main.source_files line_start_disk [lit "game"]
    ∧ (∀ f, f ∈ written →
         ∃ text text',
           line_start_disk !! f = Some (File text)
           ∧ (∃ line, line ∈ readlines text
                      ∧ whole_word_in
                          (main.asset_name [lit "game"; lit "x.png"]) line)
           ∧ before_rename !! f = Some (File text')
           ∧ replaced (main.old_asset_name [lit "game"; lit "x.png"])
                      (main.new_asset_name
                         (main.rename_asset (λ i, 7 * i) [lit "game"; lit "x.png"]))
                      text text')
    ∧ (∀ g, g ∉ written → before_rename !! g = line_start_disk !! g)
    ∧ match result (main.process_asset (λ i, 7 * i) [lit "game"]
                      [lit "game"; lit "x.png"] line_start_disk) with
      | inr _ =>
          main.search_for_asset_uses line_start_disk [lit "game"]
            [lit "game"; lit "x.png"] = inr written
          ∧ os.rename before_rename [lit "game"; lit "x.png"]
              (main.rename_asset (λ i, 7 * i) [lit "game"; lit "x.png"])
            = inr (disk (main.process_asset (λ i, 7 * i) [lit "game"]
                           [lit "game"; lit "x.png"] line_start_disk))
          ∧ trace (main.process_asset (λ i, 7 * i) [lit "game"]
                     [lit "game"; lit "x.png"] line_start_disk)
            = (EvWrite <$> written)
              ++ [EvRename [lit "game"; lit "x.png"]
                    (main.rename_asset (λ i, 7 * i) [lit "game"; lit "x.png"])]
      | inl _ =>
          disk (main.process_asset (λ i, 7 * i) [lit "game"]
                  [lit "game"; lit "x.png"] line_start_disk) = before_rename
          ∧ trace (main.process_asset (λ i, 7 * i) [lit "game"]
                     [lit "game"; lit "x.png"] line_start_disk)
            = EvWrite <$> written
      end.
Proof.
  apply (rewrites_precede_rename (λ i, 7 * i) [lit "game"]
           [lit "game"; lit "x.png"] line_start_disk).
  by vm_compute.
Defined.

(** The body stopped by a directory that is named like a script: the page
    was rewritten before, and stays so; the asset keeps its name. *)
Example rewrite_then_directory :
  result (main.process_asset (λ i, 7 * i) [lit "game"]
            [lit "game"; lit "lib.js"; lit "main.js"] odd_disk)
  = inl (IsADirectoryError [lit "game"; lit "lib.js"])
  ∧ trace (main.process_asset (λ i, 7 * i) [lit "game"]
             [lit "game"; lit "lib.js"; lit "main.js"] odd_disk)
    = [EvWrite [lit "game"; lit "index.html"]]
  ∧ disk (main.process_asset (λ i, 7 * i) [lit "game"]
            [lit "game"; lit "lib.js"; lit "main.js"] odd_disk)
      !! [lit "game"; lit "index.html"]
    = Some (File (lit "<script src='lib.js/main_ahovCJQX.js'>"))
  ∧ disk (main.process_asset (λ i, 7 * i) [lit "game"]
            [lit "game"; lit "lib.js"; lit "main.js"] odd_disk)
      !! [lit "game"; lit "lib.js"; lit "main.js"]
    = Some (File (lit "run();")).
Proof. by vm_compute. Qed.

(* ===================================================================== *)
(** * The round trip of [x.png] (C7) *)
(* ===================================================================== *)

Section RoundTrip.

Context (s1 s2 s3 s4 s5 s6 s7 s8 : ascii).
Context (A1 : re.is_ascii_alnum s1 = true) (A2 : re.is_ascii_alnum s2 = true)
        (A3 : re.is_ascii_alnum s3 = true) (A4 : re.is_ascii_alnum s4 = true)
        (A5 : re.is_ascii_alnum s5 = true) (A6 : re.is_ascii_alnum s6 = true)
        (A7 : re.is_ascii_alnum s7 = true) (A8 : re.is_ascii_alnum s8 = true).

Let old : str := lit "x.png".
Let new : str := lit "x_" ++ [s1; s2; s3; s4; s5; s6; s7; s8] ++ lit ".png".
Let R : str → str := replace_from old new 0.

(** A character other than [x] at the head of the result was copied from
    the head of the text. *)
Lemma round_trip_head (s : str) (c : ascii) (t : str) :
  R s = c :: t → c ≠ "x"%char → ∃ s', s = c :: s' ∧ R s' = t.
Proof.
  intros HR Hc. destruct s as [|a s]; [discriminate|].
  destruct (startswith old (a :: s)) eqn:E.
  - apply startswith_spec in E as [u Eu]. unfold R in HR.
    rewrite Eu in HR. unfold old in HR.
    change (lit "x.png") with ("x"%char :: lit ".png") in HR.
    rewrite replace_from_occurrence in HR. injection HR as <- _. done.
  - unfold R in HR. rewrite replace_from_other in HR by done.
    injection HR as -> HR. eauto.
Qed.

(** The old name does not appear at the head of the result unless it was
    at the head of the text. *)
Lemma round_trip_no_fresh_start (s r : str) :
  startswith old s = false → R s ≠ old ++ r.
Proof.
  intros E HR. destruct s as [|a s]; [discriminate|].
  unfold R in HR. rewrite replace_from_other in HR by done.
  injection HR as -> HR.
  apply round_trip_head in HR as (s1' & -> & HR); [|done].
  apply round_trip_head in HR as (s2' & -> & HR); [|done].
  apply round_trip_head in HR as (s3' & -> & HR); [|done].
  apply round_trip_head in HR as (s4' & -> & HR); [|done].
  by vm_compute in E.
Qed.

(** After the replacement, whatever occurrence of the old name is left has
    a word character right before it. *)
Lemma round_trip_occurrences (s l r : str) :
  R s = l ++ old ++ r → ∃ a, last l = Some a ∧ re.is_word a = true.
Proof.
  remember (length s) as n eqn:Hn. revert s l r Hn.
  induction n as [n IH] using lt_wf_ind. intros s l r -> Heq.
  destruct s as [|c s]; [by destruct l|].
  destruct (startswith old (c :: s)) eqn:E.
  - apply startswith_spec in E as [t Et]. rewrite Et in *.
    unfold R, old in Heq. change (lit "x.png") with ("x"%char :: lit ".png") in Heq.
    rewrite replace_from_occurrence in Heq. fold old in Heq. fold R in Heq.
    unfold new in Heq. simpl in Heq.
    do 14 (destruct l as [|? l];
           [ first [ discriminate Heq
                   | eexists; split; [reflexivity|];
                     first [ by apply alnum_is_word | by vm_compute ] ]
           | injection Heq as <- Heq ]).
    destruct (IH (length t)) with (s := t) (l := l) (r := r) as (a & Ha & Hw);
      [rewrite length_app; simpl; lia | done | done |].
    exists a. split; [|done].
    change (?a0 :: ?a1 :: ?a2 :: ?a3 :: ?a4 :: ?a5 :: ?a6 :: ?a7 :: ?a8 :: ?a9
              :: ?a10 :: ?a11 :: ?a12 :: ?a13 :: l)
      with ([a0; a1; a2; a3; a4; a5; a6; a7; a8; a9; a10; a11; a12; a13] ++ l).
    by rewrite last_app, Ha.
  - destruct l as [|c' l].
    + exfalso. by eapply round_trip_no_fresh_start.
    + unfold R in Heq. rewrite replace_from_other in Heq by done.
      injection Heq as <- Heq.
      destruct (IH (length s)) with (s := s) (l := l) (r := r) as (a & Ha & Hw);
        [simpl; lia | done | done |].
      exists a. split; [|done].
      change (c :: l) with ([c] ++ l). by rewrite last_app, Ha.
Qed.

Lemma round_trip_no_standalone (s : str) : ¬ standalone_in old (R s).
Proof.
  intros (l & r & Heq & Hl & _).
  apply round_trip_occurrences in Heq as (a & Ha & Hw).
  apply last_Some in Ha as [l' ->]. rewrite (Hl l' a) in Hw; done.
Qed.

End RoundTrip.

(** A suffix of eight characters, character by character. *)
Ltac eight_chars sfx :=
  do 9 (destruct sfx as [|? sfx]; try discriminate).

Section RoundTripStep.

Implicit Types (fs : FS) (dir a root : Path) (rnd : nat → nat).

Lemma stem_x_png dir : pathlib.stem (dir ++ [lit "x.png"]) = lit "x".
Proof. unfold pathlib.stem. by rewrite name_snoc. Qed.

Lemma suffix_x_png dir : pathlib.suffix (dir ++ [lit "x.png"]) = lit ".png".
Proof. unfold pathlib.suffix. by rewrite name_snoc. Qed.

Lemma rename_asset_x_png rnd dir :
  main.rename_asset rnd (dir ++ [lit "x.png"])
  = dir ++ [lit "x_" ++ main.generate_random_string rnd 8 ++ lit ".png"].
Proof.
  unfold main.rename_asset, pathlib.with_stem, pathlib.with_name.
  rewrite stem_x_png, suffix_x_png, removelast_last. f_equal.
Qed.

Lemma suffix_renamed dir (sfx : str) :
  length sfx = 8 →
  pathlib.suffix (dir ++ [lit "x_" ++ sfx ++ lit ".png"]) = lit ".png".
Proof.
  intros Hlen. unfold pathlib.suffix. rewrite name_snoc.
  eight_chars sfx. reflexivity.
Qed.

Lemma not_source_name root fs f (nm : str) :
  pathlib.name f = nm →
  endswith (lit ".html") nm = false →
  endswith (lit ".js") nm = false →
  endswith (lit ".json") nm = false →
  f ∉ main.source_files fs root.
Proof.
  intros <- H1 H2 H3 Hf. apply elem_of_source_files in Hf as (_ & _ & H).
  destruct H as [H|[H|H]]; congruence.
Qed.

End RoundTripStep.

(** C7, as the code has it: the loop body of [main] on the asset [x.png],
    when a line of [a.html] holds [x.png] between two characters that are
    no word characters, the source files below the root all hold text,
    and no directory stands where the renamed asset goes.  The body ends
    normally.  The new name is [x_], eight characters that are letters or
    digits, and [.png]; [a.html] contains the new name and holds [x.png]
    nowhere as a token of its own; nothing is left at the path of
    [x.png]; and the file is at the new name, in the same directory and
    with the same extension. *)
Theorem rename_round_trip (rnd : nat → nat) (extract_path dir a : Path)
    (fs : FS) (content : str) (node : fsnode) :
  pathlib.name a = lit "a.html" →
  pathlib.is_under extract_path a = true →
  fs !! a = Some (File content) →
  (∃ line, line ∈ readlines content ∧ whole_word_in (lit "x.png") line) →
  sources_are_text fs extract_path →
  fs !! (dir ++ [lit "x.png"]) = Some node →
  node ≠ Dir →
  fs !! main.rename_asset rnd (dir ++ [lit "x.png"]) ≠ Some Dir →
  ∃ suffix content',
    length suffix = 8
    ∧ Forall (λ c, re.is_ascii_alnum c = true) suffix
    ∧ main.rename_asset rnd (dir ++ [lit "x.png"])
      = dir ++ [lit "x_" ++ suffix ++ lit ".png"]
    ∧ result (main.process_asset rnd extract_path (dir ++ [lit "x.png"]) fs)
      = inr ()
    ∧ disk (main.process_asset rnd extract_path (dir ++ [lit "x.png"]) fs) !! a
      = Some (File content')
    ∧ occurs (lit "x_" ++ suffix ++ lit ".png") content'
    ∧ ¬ standalone_in (lit "x.png") content'
    ∧ disk (main.process_asset rnd extract_path (dir ++ [lit "x.png"]) fs)
        !! (dir ++ [lit "x.png"]) = None
    ∧ disk (main.process_asset rnd extract_path (dir ++ [lit "x.png"]) fs)
        !! (dir ++ [lit "x_" ++ suffix ++ lit ".png"]) = Some node
    ∧ pathlib.parent (dir ++ [lit "x_" ++ suffix ++ lit ".png"])
      = pathlib.parent (dir ++ [lit "x.png"])
    ∧ pathlib.suffix (dir ++ [lit "x_" ++ suffix ++ lit ".png"])
      = pathlib.suffix (dir ++ [lit "x.png"]).
Proof.
  intros Hname Hunder Ha (line & Hline & Hword) Htext Hasset Hnode Hfree.
  destruct (generate_random_string_alnum rnd 8) as [Hlen Halnum].
  rewrite rename_asset_x_png in *.
  set (asset := dir ++ [lit "x.png"]) in *.
  set (sfx := main.generate_random_string rnd 8) in *.
  set (new_asset := dir ++ [lit "x_" ++ sfx ++ lit ".png"]) in *.
  exists sfx.
  (* the names *)
  assert (main.asset_name asset = lit "x.png") as Hn_scan
    by (unfold main.asset_name, asset; by rewrite suffix_x_png, name_snoc).
  assert (main.old_asset_name asset = lit "x.png") as Hn_old by exact Hn_scan.
  assert (main.new_asset_name new_asset = lit "x_" ++ sfx ++ lit ".png") as Hn_new.
  { unfold main.new_asset_name, new_asset.
    rewrite suffix_renamed by done. by rewrite name_snoc. }
  (* a.html is a use *)
  assert (a ∈ main.source_files fs extract_path) as Ha_src.
  { apply elem_of_source_files. split; [by rewrite Ha|]. split; [done|].
    left. by rewrite Hname. }
  assert (hit fs asset a = true) as Ha_hit.
  { rewrite (hit_file _ _ _ _ Ha), Hn_scan. apply lines_match_spec.
    exists line. split; [done|]. by apply search_whole_word. }
  (* the asset and its new path are no source files *)
  assert (asset ∉ main.source_files fs extract_path) as Hasset_src.
  { apply (not_source_name _ _ _ (lit "x.png")); [apply name_snoc|done..]. }
  assert (new_asset ∉ main.source_files fs extract_path) as Hnew_src.
  { apply (not_source_name _ _ _ (lit "x_" ++ sfx ++ lit ".png"));
      [apply name_snoc|..];
      clear -Hlen; eight_chars sfx; reflexivity. }
  assert (a ≠ asset) as Ha_asset.
  { intros ->. unfold asset in Hname. rewrite name_snoc in Hname. discriminate. }
  assert (a ≠ new_asset) as Ha_new.
  { intros ->. unfold new_asset in Hname. rewrite name_snoc in Hname.
    discriminate. }
  assert (asset ≠ new_asset) as Hasset_new.
  { unfold asset, new_asset. intros H. apply app_inj_tail in H as [_ H].
    discriminate. }
  assert (pathlib.is_under new_asset asset = false) as Habove.
  { apply not_true_is_false. intros H. apply is_under_length in H.
    unfold asset, new_asset in H. rewrite !length_app in H. simpl in H. lia. }
  (* the run *)
  destruct (process_asset_run rnd extract_path asset fs Htext)
    as (fs' & Hout & Hin & Hrun).
  unfold asset in Hrun, Hin. rewrite rename_asset_x_png in Hrun, Hin.
  fold asset sfx new_asset in Hrun, Hin.
  destruct (filter _ (main.source_files fs extract_path)) as [|u us] eqn:Hu.
  { exfalso. exact (filter_nil_not_elem_of _ _ a Hu Ha_hit Ha_src). }
  assert (os.rename fs' asset new_asset
          = inr (<[new_asset := node]> (delete asset fs'))) as Hren.
  { rewrite (rename_file fs' asset new_asset node);
      [|by rewrite Hout|done|congruence|done].
    rewrite (Hout new_asset Hnew_src).
    destruct (fs !! new_asset) as [[| |]|]; done. }
  rewrite Hren in Hrun. rewrite Hrun. cbn [disk result].
  exists (str_replace content (lit "x.png") (lit "x_" ++ sfx ++ lit ".png")).
  split; [done|]. split; [done|]. split; [done|]. split; [done|].
  split; [|split; [|split; [|split; [|split; [|split]]]]].
  - rewrite lookup_insert_ne, lookup_delete_ne by done.
    rewrite (Hin a content Ha_src Ha), Ha_hit. by rewrite Hn_old, Hn_new.
  - apply replace_from_keeps_new.
    eapply occurs_trans; [by apply whole_word_occurs | by apply readlines_occurs].
  - clear -Hlen Halnum. eight_chars sfx.
    repeat (apply Forall_cons in Halnum as [? Halnum]).
    by apply round_trip_no_standalone.
  - rewrite lookup_insert_ne by done. apply lookup_delete_eq.
  - apply lookup_insert_eq.
  - unfold pathlib.parent, new_asset, asset. by rewrite !removelast_last.
  - unfold new_asset, asset. by rewrite suffix_renamed, suffix_x_png.
Qed.

Lemma rename_round_trip_witness :
  ∃ suffix content',
    length suffix = 8
    ∧ Forall (λ c, re.is_ascii_alnum c = true) suffix
    ∧ main.rename_asset (λ i, 7 * i) ([lit "game"; lit "images"] ++ [lit "x.png"])
      = [lit "game"; lit "images"] ++ [lit "x_" ++ suffix ++ lit ".png"]
    ∧ result (main.process_asset (λ i, 7 * i) [lit "game"]
                ([lit "game"; lit "images"] ++ [lit "x.png"]) demo_disk)
      = inr ()
    ∧ disk (main.process_asset (λ i, 7 * i) [lit "game"]
              ([lit "game"; lit "images"] ++ [lit "x.png"]) demo_disk)
        !! [lit "game"; lit "a.html"]
      = Some (File content')
    ∧ occurs (lit "x_" ++ suffix ++ lit ".png") content'
    ∧ ¬ standalone_in (lit "x.png") content'
    ∧ disk (main.process_asset (λ i, 7 * i) [lit "game"]
              ([lit "game"; lit "images"] ++ [lit "x.png"]) demo_disk)
        !! ([lit "game"; lit "images"] ++ [lit "x.png"]) = None
    ∧ disk (main.process_asset (λ i, 7 * i) [lit "game"]
              ([lit "game"; lit "images"] ++ [lit "x.png"]) demo_disk)
        !! ([lit "game"; lit "images"] ++ [lit "x_" ++ suffix ++ lit ".png"])
      = Some (Blob PNG)
    ∧ pathlib.parent ([lit "game"; lit "images"] ++ [lit "x_" ++ suffix ++ lit ".png"])
      = pathlib.parent ([lit "game"; lit "images"] ++ [lit "x.png"])
    ∧ pathlib.suffix ([lit "game"; lit "images"] ++ [lit "x_" ++ suffix ++ lit ".png"])
      = pathlib.suffix ([lit "game"; lit "images"] ++ [lit "x.png"]).
Proof.
  apply (rename_round_trip (λ i, 7 * i) [lit "game"] [lit "game"; lit "images"]
           [lit "game"; lit "a.html"] demo_disk (lit "<img src='x.png'>")
           (Blob PNG)).
  - reflexivity.
  - reflexivity.
  - by vm_compute.
  - exists (lit "<img src='x.png'>"). split.
    + vm_compute. left.
    + apply search_whole_word. by vm_compute.
  - intros f Hf. vm_compute in Hf. apply list_elem_of_singleton in Hf as ->.
    eexists. by vm_compute.
  - by vm_compute.
  - done.
  - by vm_compute.
Defined.

(** C7, where the claim fails.  First, [a.html] names [x.png] at the start
    of a line, where the scanner does not see it, and a script names it
    between quotes: the body ends normally and renames the image; the page
    is not rewritten, so it still holds [x.png] as a token of its own,
    which now names no file, and it does not hold the new name.  Second,
    [a.html] names [x.png] between quotes, and a directory is named like a
    data file: the page is rewritten, then the scanner comes to the
    directory and raises, and the image keeps its name, which the page no
    longer holds. *)
Lemma round_trip_fails :
  (result (main.process_asset (λ i, 7 * i) [lit "game"]
             [lit "game"; lit "x.png"] line_start_disk)
   = inr ()
   ∧ trace (main.process_asset (λ i, 7 * i) [lit "game"]
              [lit "game"; lit "x.png"] line_start_disk)
     = [EvWrite [lit "game"; lit "b.js"];
        EvRename [lit "game"; lit "x.png"] [lit "game"; lit "x_ahovCJQX.png"]]
   ∧ disk (main.process_asset (λ i, 7 * i) [lit "game"]
             [lit "game"; lit "x.png"] line_start_disk)
       !! [lit "game"; lit "x.png"] = None
   ∧ disk (main.process_asset (λ i, 7 * i) [lit "game"]
             [lit "game"; lit "x.png"] line_start_disk)
       !! [lit "game"; lit "x_ahovCJQX.png"] = Some (Blob PNG)
   ∧ disk (main.process_asset (λ i, 7 * i) [lit "game"]
             [lit "game"; lit "x.png"] line_start_disk)
       !! [lit "game"; lit "a.html"] = Some (File (lit "x.png is the logo"))
   ∧ standalone_in (lit "x.png") (lit "x.png is the logo")
   ∧ ¬ occurs (lit "x_ahovCJQX.png") (lit "x.png is the logo"))
  ∧ (result (main.process_asset (λ i, 7 * i) [lit "game"]
               [lit "game"; lit "x.png"] dir_source_disk)
     = inl (IsADirectoryError [lit "game"; lit "data.json"])
     ∧ trace (main.process_asset (λ i, 7 * i) [lit "game"]
                [lit "game"; lit "x.png"] dir_source_disk)
       = [EvWrite [lit "game"; lit "a.html"]]
     ∧ disk (main.process_asset (λ i, 7 * i) [lit "game"]
               [lit "game"; lit "x.png"] dir_source_disk)
         !! [lit "game"; lit "a.html"]
       = Some (File (lit "<img src='x_ahovCJQX.png'>"))
     ∧ disk (main.process_asset (λ i, 7 * i) [lit "game"]
               [lit "game"; lit "x.png"] dir_source_disk)
         !! [lit "game"; lit "x.png"] = Some (Blob PNG)
     ∧ disk (main.process_asset (λ i, 7 * i) [lit "game"]
               [lit "game"; lit "x.png"] dir_source_disk)
         !! [lit "game"; lit "x_ahovCJQX.png"] = None).
Proof.
  split; [|by vm_compute].
  split; [by vm_compute|]. split; [by vm_compute|]. split; [by vm_compute|].
  split; [by vm_compute|]. split; [by vm_compute|]. split.
  - exists [], (lit " is the logo"). split; [done|]. split.
    + intros l' c H. by destruct l'.
    + intros b r' [= <- _]. by vm_compute.
  - rewrite occurs_decide. by vm_compute.
Qed.
(* ===================================================================== *)
(** * The archive expander (C8) *)
(* ===================================================================== *)




(* ===================================================================== *)
(** * The logger of the core (C9) *)
(* ===================================================================== *)

Section LoggerFacts.

Local Open Scope Z_scope.

Implicit Types (environ : gmap str str) (v caller : str) (n severity : Z).

Lemma empty_name_no_level : logging._nameToLevel !! ([] : str) = None.
Proof. by vm_compute. Qed.

(** The logger as [getLogger()] builds it when the variable is set. *)
Lemma getLogger_environ environ caller v :
  environ !! lit "LOGGING_LEVEL" = Some v →
  v ≠ [] →
  logging.getLogger environ caller None None
  = match logging._nameToLevel !! v with
    | Some n => inr (logging.mkLogger caller n)
    | None => inl (ValueError (lit "Unknown level: " ++ repr v))
    end.
Proof.
  intros Hv Hne.
  unfold logging.getLogger, logging.ColoredLogger, logging.__default_level__.
  rewrite Hv. unfold logging.if_not, logging.truthy.
  rewrite !bool_decide_eq_false_2 by done. simpl.
  by destruct (logging._nameToLevel !! v).
Qed.

Lemma isEnabledFor_level caller n severity :
  logging.isEnabledFor (logging.mkLogger caller n) severity = true
  ↔ 0 < severity ∧ n ≤ severity.
Proof.
  unfold logging.isEnabledFor, logging.getEffectiveLevel, logging.NOTSET. simpl.
  destruct (0 >=? severity) eqn:E1.
  - apply Z.geb_le in E1. split; [done | lia].
  - assert (0 < severity) by (rewrite Z.geb_leb in E1; apply Z.leb_gt in E1; lia).
    destruct (n =? 0) eqn:E2; simpl.
    + apply Z.eqb_eq in E2 as ->. rewrite Z.geb_le. lia.
    + rewrite Z.geb_le. lia.
Qed.

End LoggerFacts.

(** C9, as the code has it.  The variable [LOGGING_LEVEL] selects the level
    with which the logger is constructed: a recognized name gives the
    standard level of that name, and a value that is not empty and is not
    a recognized name makes the construction raise [ValueError], which
    ends the import of [main.py].  The core then sets the level of its
    logger to INFO: whenever the construction succeeds, the lines that the
    core emits are those of severity INFO and above, whatever the
    variable holds. *)
Theorem logger_level_from_environment (environ : gmap str str) :
  (∀ v n, environ !! lit "LOGGING_LEVEL" = Some v →
          logging._nameToLevel !! v = Some n →
          logging.getLogger environ (lit "__main__") None None
          = inr (logging.mkLogger (lit "__main__") n))
  ∧ (∀ v, environ !! lit "LOGGING_LEVEL" = Some v →
          v ≠ [] →
          logging._nameToLevel !! v = None →
          ∃ message,
            logging.getLogger environ (lit "__main__") None None
            = inl (ValueError message)
            ∧ main._logger environ = inl (ValueError message))
  ∧ (∀ logger, main._logger environ = inr logger →
               logging.level logger = logging.INFO
               ∧ ∀ severity, logging.isEnabledFor logger severity = true
                             ↔ (logging.INFO ≤ severity)%Z).
Proof.
  split; [|split].
  - intros v n Hv Hn. rewrite (getLogger_environ _ _ v); [by rewrite Hn|done|].
    intros ->. by rewrite empty_name_no_level in Hn.
  - intros v Hv Hne Hn. eexists. unfold main._logger.
    rewrite (getLogger_environ _ _ v) by done. by rewrite Hn.
  - intros logger H. unfold main._logger in H.
    destruct (logging.getLogger environ _ None None) as [e|lg]; [done|].
    simpl in H. injection H as <-. split; [done|].
    intros severity. rewrite isEnabledFor_level. unfold logging.INFO. lia.
Qed.

Lemma logger_level_from_environment_witness :
  logging.getLogger {[ lit "LOGGING_LEVEL" := lit "WARNING" ]} (lit "__main__")
                    None None
  = inr (logging.mkLogger (lit "__main__") logging.WARNING).
Proof.
  apply (proj1 (logger_level_from_environment
                  {[ lit "LOGGING_LEVEL" := lit "WARNING" ]}) (lit "WARNING"));
    by vm_compute.
Defined.

(** C9, where the claim fails: with [LOGGING_LEVEL=DEBUG], a recognized
    name whose level is 10, the logger of the core has level INFO and does
    not emit a record of severity DEBUG. *)
Lemma debug_level_not_honoured :
  logging._nameToLevel !! lit "DEBUG" = Some logging.DEBUG
  ∧ main._logger {[ lit "LOGGING_LEVEL" := lit "DEBUG" ]}
    = inr (logging.mkLogger (lit "__main__") logging.INFO)
  ∧ logging.isEnabledFor (logging.mkLogger (lit "__main__") logging.INFO)
                         logging.DEBUG = false.
Proof. by vm_compute. Qed.

Example logger_unknown_level :
  main._logger {[ lit "LOGGING_LEVEL" := lit "verbose" ]}
  = inl (ValueError (lit "Unknown level: 'verbose'")).
Proof. by vm_compute. Qed.

Example logger_empty_level :
  main._logger {[ lit "LOGGING_LEVEL" := [] ]}
  = inr (logging.mkLogger (lit "__main__") logging.INFO).
Proof. by vm_compute. Qed.

(* ===================================================================== *)
(** * What the generators yield *)
(* ===================================================================== *)

Section GeneratorFacts.

Implicit Types (fs : FS) (f root asset : Path) (s : str).

(** Of two endings of one text, the shorter is an ending of the longer. *)
Lemma endswith_both (e1 e2 : str) s :
  endswith e1 s = true → endswith e2 s = true → length e1 ≤ length e2 →
  endswith e1 e2 = true.
Proof.
  intros H1 H2 Hle. apply endswith_spec in H1 as [t1 ->].
  apply endswith_spec in H2 as [t2 H2]. apply endswith_spec.
  remember (length e2 - length e1) as k eqn:Hk.
  exists (take k e2).
  rewrite <- (take_drop k e2) in H2 at 1.
  rewrite app_assoc in H2. apply app_inj_2 in H2 as [_ H2].
  - rewrite H2. by rewrite take_drop.
  - rewrite length_drop. lia.
Qed.

(** No name matches two asset patterns. *)
Lemma patterns_disjoint (e1 e2 : str) s :
  e1 ∈ main.ASSETS_PATTERNS → e2 ∈ main.ASSETS_PATTERNS →
  endswith e1 s = true → endswith e2 s = true → e1 = e2.
Proof.
  intros He1 He2 H1 H2.
  assert (endswith e1 e2 = true ∨ endswith e2 e1 = true) as Hor.
  { destruct (decide (length e1 ≤ length e2)).
    - left. by eapply endswith_both.
    - right. eapply endswith_both; [done..|lia]. }
  clear H1 H2. unfold main.ASSETS_PATTERNS in *.
  repeat (apply elem_of_cons in He1 as [->|He1]);
    try (by apply elem_of_nil in He1);
    repeat (apply elem_of_cons in He2 as [->|He2]);
    try (by apply elem_of_nil in He2);
    try reflexivity; vm_compute in Hor; by destruct Hor.
Qed.

Lemma elem_of_identify_assets fs root f :
  f ∈ identify_assets fs root
  ↔ is_Some (fs !! f)
    ∧ pathlib.is_under root f = true
    ∧ ∃ ext, ext ∈ main.ASSETS_PATTERNS ∧ endswith ext (pathlib.name f) = true.
Proof.
  unfold identify_assets. rewrite list_elem_of_bind. split.
  - intros (ext & Hf & Hext). apply elem_of_rglob in Hf as (? & ? & ?). eauto.
  - intros (? & ? & ext & ? & ?). exists ext. split; [|done].
    by apply elem_of_rglob.
Qed.

Lemma uses_are_matches fs root asset f :
  f ∈ filter (λ f, hit fs asset f = true) (main.source_files fs root)
  ↔ f ∈ main.source_files fs root
    ∧ ∃ text line, fs !! f = Some (File text)
                   ∧ line ∈ readlines text
                   ∧ whole_word_in (main.asset_name asset) line.
Proof. by rewrite list_elem_of_filter, hit_spec, (comm and). Qed.

(** What [open] and [readlines] raise on a path that is there. *)
Lemma read_text_error fs u e :
  is_Some (fs !! u) → os.read_text fs u = inl e →
  (fs !! u = Some Dir ∧ e = IsADirectoryError u)
  ∨ (∃ data, fs !! u = Some (Blob data) ∧ e = UnicodeDecodeError).
Proof.
  unfold os.read_text. intros [n Hn]. rewrite Hn.
  destruct n; intros [= <-]; eauto.
Qed.

End GeneratorFacts.

(** X4: what the reference scanner does, consumed to its end on a disk
    that nobody changes meanwhile.  When it does not raise, every path
    below the folder that is named like a source file is a regular file
    that holds text, and the scanner yields at least one file, no file
    twice, in the order of the source files, and exactly the source files
    of which some line holds the reference name as a whole word.  When it
    raises, either every such path holds text, no line of them holds the
    name as a whole word, and the exception is the one that names the
    asset; or the scanner has come to a path that is a directory or a file
    that is not UTF-8, after reading the source files before it, and the
    exception is [IsADirectoryError] for that path or
    [UnicodeDecodeError]. *)
Theorem search_for_asset_uses_yields (fs : FS) (folder_path asset : Path) :
  match main.search_for_asset_uses fs folder_path asset with
  | inr uses =>
      sources_are_text fs folder_path
      ∧ uses ≠ [] ∧ NoDup uses
      ∧ uses `sublist_of` main.source_files fs folder_path
      ∧ ∀ f, f ∈ uses
             ↔ f ∈ main.source_files fs folder_path
               ∧ ∃ text line, fs !! f = Some (File text)
                              ∧ line ∈ readlines text
                              ∧ whole_word_in (main.asset_name asset) line
  | inl e =>
      (e = main.not_found asset
       ∧ sources_are_text fs folder_path
       ∧ ∀ f text line, f ∈ main.source_files fs folder_path →
                        fs !! f = Some (File text) →
                        line ∈ readlines text →
                        ¬ whole_word_in (main.asset_name asset) line)
      ∨ (∃ pre u rest,
           main.source_files fs folder_path = pre ++ u :: rest
           ∧ (∀ f, f ∈ pre → ∃ text, fs !! f = Some (File text))
           ∧ ((fs !! u = Some Dir ∧ e = IsADirectoryError u)
              ∨ (∃ data, fs !! u = Some (Blob data)
                         ∧ e = UnicodeDecodeError)))
  end.
Proof.
  destruct (readable_split fs (main.source_files fs folder_path))
    as (pre & rest & Hsplit & Hpre & [->|(u & rest' & e & -> & Hu)]).
  - rewrite app_nil_r in Hsplit.
    assert (sources_are_text fs folder_path) as Htext
      by (intros f Hf; apply Hpre; by rewrite <- Hsplit).
    rewrite search_for_asset_uses_run by done.
    destruct (filter _ (main.source_files fs folder_path)) as [|w ws] eqn:Hw.
    + left. split; [done|]. split; [done|].
      intros f text line Hf Hft Hline Hword.
      assert (f ∈ filter (λ f, hit fs asset f = true)
                         (main.source_files fs folder_path)) as Hmem
        by (apply uses_are_matches; eauto 10).
      rewrite Hw in Hmem. by apply elem_of_nil in Hmem.
    + rewrite <- Hw. split; [done|]. split; [by rewrite Hw|]. split; [|split].
      * apply NoDup_filter, NoDup_source_files.
      * apply sublist_filter.
      * intros f. apply uses_are_matches.
  - rewrite (search_for_asset_uses_stops _ _ _ _ _ _ _ Hsplit Hpre Hu).
    right. exists pre, u, rest'. split; [done|]. split; [done|].
    apply read_text_error; [|done].
    assert (u ∈ main.source_files fs folder_path) as Hin
      by (rewrite Hsplit; apply elem_of_app; right; left).
    by apply elem_of_source_files in Hin as (? & _).
Qed.

(** X5: what the asset locator yields on a disk that nobody changes
    meanwhile: no path twice, and exactly the paths below the extraction
    root whose name ends in one of the seven extensions, the regular files
    and the directories alike. *)
Theorem identify_assets_yields (fs : FS) (extract_path : Path) :
  NoDup (identify_assets fs extract_path)
  ∧ ∀ f, f ∈ identify_assets fs extract_path
         ↔ is_Some (fs !! f)
           ∧ pathlib.is_under extract_path f = true
           ∧ ∃ ext, ext ∈ main.ASSETS_PATTERNS
                    ∧ endswith ext (pathlib.name f) = true.
Proof.
  split; [|apply elem_of_identify_assets].
  unfold identify_assets. apply NoDup_bind.
  - intros e1 e2 f He1 He2 H1 H2.
    apply elem_of_rglob in H1 as (_ & _ & H1).
    apply elem_of_rglob in H2 as (_ & _ & H2).
    by eapply patterns_disjoint.
  - intros ext _. apply NoDup_rglob.
  - apply (bool_decide_unpack (NoDup main.ASSETS_PATTERNS)). by vm_compute.
Qed.

(** A directory that is named like a script is an asset and a source
    file for the generators. *)
Example directory_named_like_a_script :
  [lit "game"; lit "lib.js"] ∈ identify_assets odd_disk [lit "game"]
  ∧ [lit "game"; lit "lib.js"] ∈ main.source_files odd_disk [lit "game"].
Proof.
  split.
  - apply elem_of_identify_assets. split; [eexists; by vm_compute|]. split; [done|].
    exists (lit ".js"). split; [|done]. apply (bool_decide_unpack _). by vm_compute.
  - apply elem_of_source_files. split; [eexists; by vm_compute|]. split; [done|].
    right. by left.
Qed.
(* ===================================================================== *)
(** * When the loop body succeeds *)
(* ===================================================================== *)

Section BodyFacts.

Implicit Types (fs : FS) (f g p q root asset src dst : Path) (rnd : nat → nat).




End BodyFacts.



(** A directory that is an asset moves with what it holds: the script
    directory of a page that names it between quotes. *)
Example directory_asset_renamed :
  result (main.process_asset (λ i, 7 * i) [lit "game"]
            [lit "game"; lit "lib.png"]
            {[ [lit "game"] := Dir;
               [lit "game"; lit "index.html"] := File (lit "<a href='lib.png'>");
               [lit "game"; lit "lib.png"] := Dir;
               [lit "game"; lit "lib.png"; lit "one.txt"] := File (lit "1") ]})
  = inr ()
  ∧ disk (main.process_asset (λ i, 7 * i) [lit "game"]
            [lit "game"; lit "lib.png"]
            {[ [lit "game"] := Dir;
               [lit "game"; lit "index.html"] := File (lit "<a href='lib.png'>");
               [lit "game"; lit "lib.png"] := Dir;
               [lit "game"; lit "lib.png"; lit "one.txt"] := File (lit "1") ]})
      !! [lit "game"; lit "lib_ahovCJQX.png"; lit "one.txt"]
    = Some (File (lit "1"))
  ∧ disk (main.process_asset (λ i, 7 * i) [lit "game"]
            [lit "game"; lit "lib.png"]
            {[ [lit "game"] := Dir;
               [lit "game"; lit "index.html"] := File (lit "<a href='lib.png'>");
               [lit "game"; lit "lib.png"] := Dir;
               [lit "game"; lit "lib.png"; lit "one.txt"] := File (lit "1") ]})
      !! [lit "game"; lit "lib.png"; lit "one.txt"]
    = None.
Proof. by vm_compute. Qed.
(* ===================================================================== *)
(** * The extraction, and what a run leaves alone *)
(* ===================================================================== *)

Section RunFacts.

Implicit Types (fs : FS) (p q path root asset : Path) (rnd : nat → nat).

Lemma extract_zip_result unzip fs (archive_path p : Path) :
  result (main.extract_zip unzip fs archive_path) = inr p →
  p = main.extract_path_of archive_path.
Proof.
  unfold main.extract_zip.
  destruct (os.path_exists fs _); [by intros [= <-]|].
  destruct (main.open_zip unzip fs archive_path) as [e|members]; [done|].
  destruct (zipfile.extractall fs _ members) as [fs' [e|[]]]; [done|].
  by intros [= <-].
Qed.

(** The extraction writes below the extraction directory only. *)
Lemma extract_zip_outside unzip fs (archive_path : Path) q node :
  fs !! q = Some node →
  pathlib.is_under (main.extract_path_of archive_path) q = false →
  disk (main.extract_zip unzip fs archive_path) !! q = Some node.
Proof.
  intros Hq Hout. unfold main.extract_zip.
  destruct (os.path_exists fs _) eqn:Hex; [done|].
  destruct (main.open_zip unzip fs archive_path) as [e|members]; [done|].
  destruct (zipfile.extractall fs _ members) as [fs' r] eqn:Hx. simpl.
  eapply extractall_keeps_others; [done..|].
  intros m _ ->. destruct (zipfile.sanitize m.1) as [|d ds].
  - rewrite app_nil_r in Hq. apply bool_decide_eq_false in Hex.
    apply Hex. by rewrite Hq.
  - assert (pathlib.is_under (main.extract_path_of archive_path)
              (main.extract_path_of archive_path ++ d :: ds) = true)
      by (apply is_under_spec; eauto).
    congruence.
Qed.

(** The loop body works below the extraction root only. *)
Lemma process_asset_outside rnd root asset fs q :
  pathlib.is_under root asset = true →
  pathlib.is_under root q = false →
  disk (main.process_asset rnd root asset fs) !! q = fs !! q.
Proof.
  intros Hasset Hq.
  destruct (process_asset_any rnd root asset fs)
    as (written & fs1 & Hsub & _ & Hout & _ & Hcases).
  assert (fs1 !! q = fs !! q) as Hsame.
  { apply Hout. intros Hw. eapply elem_of_sublist in Hw; [|done].
    apply elem_of_source_files in Hw as (_ & ? & _). congruence. }
  destruct Hcases as [(pre & u & rest & e & _ & _ & _ & _ & ->)|(_ & _ & ->)];
    [done|].
  destruct written as [|w ws]; [done|].
  destruct (os.rename fs1 asset _) as [e|fs2] eqn:Hren; [done|]. simpl.
  rewrite <- Hsame. eapply rename_outside; [done..| |done].
  by apply is_under_rename.
Qed.

Lemma process_assets_outside root q assets : ∀ rnd fs tr,
  Forall (λ asset, pathlib.is_under root asset = true) assets →
  pathlib.is_under root q = false →
  disk (main.process_assets rnd root assets fs tr).1 !! q = fs !! q.
Proof.
  induction assets as [|asset assets IH]; intros rnd fs tr Hall Hq; [done|].
  apply Forall_cons in Hall as [Hasset Hall]. simpl.
  destruct (result (main.process_asset rnd root asset fs)); simpl.
  - by apply process_asset_outside.
  - rewrite IH by done. by apply process_asset_outside.
Qed.

Lemma process_patterns_outside root q patterns : ∀ rnd fs tr,
  pathlib.is_under root q = false →
  disk (main.process_patterns rnd root patterns fs tr) !! q = fs !! q.
Proof.
  induction patterns as [|ext patterns IH]; intros rnd fs tr Hq; [done|].
  simpl.
  pose proof (process_assets_outside root q (os.rglob fs root ext) rnd fs tr)
    as Hassets.
  destruct (main.process_assets rnd root (os.rglob fs root ext) fs tr)
    as [o rnd'].
  simpl in Hassets. rewrite <- Hassets; [|by apply Forall_forall; intros f Hf;
    apply elem_of_rglob in Hf as (_ & ? & _) | done].
  destruct (result o); [done|]. by apply IH.
Qed.

(** A whole run works below the extraction directory only. *)
Lemma main_outside unzip rnd fs (archive_path : Path) q node :
  fs !! q = Some node →
  pathlib.is_under (main.extract_path_of archive_path) q = false →
  disk (main.main unzip rnd fs archive_path) !! q = Some node.
Proof.
  intros Hq Hout. unfold main.main.
  destruct (negb (os.path_exists fs archive_path)); [done|].
  pose proof (extract_zip_outside unzip fs archive_path q node Hq Hout) as Hx.
  destruct (result (main.extract_zip unzip fs archive_path)) as [e|p] eqn:Hr;
    [done|].
  apply extract_zip_result in Hr as ->.
  by rewrite process_patterns_outside.
Qed.

Lemma rglob_nothing_below fs root ext :
  (∀ q, pathlib.is_under root q = true → fs !! q = None) →
  os.rglob fs root ext = [].
Proof.
  intros Hnone. destruct (os.rglob fs root ext) as [|f l] eqn:E; [done|].
  assert (f ∈ os.rglob fs root ext) as Hf by (rewrite E; left).
  apply elem_of_rglob in Hf as ([node Hft] & Hunder & _).
  rewrite (Hnone f Hunder) in Hft. discriminate.
Qed.

Lemma process_patterns_no_assets rnd root patterns fs tr :
  (∀ ext, os.rglob fs root ext = []) →
  main.process_patterns rnd root patterns fs tr = Outcome fs tr (inr ()).
Proof.
  intros Hnone. induction patterns as [|ext patterns IH]; [done|].
  simpl. rewrite Hnone. simpl. exact IH.
Qed.

End RunFacts.

(** X7: when [extract_zip] extracts an archive and returns, and no two
    members of the archive have the same path once their names are
    cleaned as the library cleans them (the empty components and the
    components [.] and [..] dropped), every member stands at its cleaned
    path below the extraction directory: a regular file with the member's
    content, or a directory for a directory entry; and whatever was on
    the disk elsewhere is as before. *)
Theorem extract_zip_delivers_members (unzip : str → option zipfile.archive)
    (fs : FS) (archive_path : Path) (members : zipfile.archive) :
  main.open_zip unzip fs archive_path = inr members →
  os.path_exists fs (main.extract_path_of archive_path) = false →
  NoDup (zipfile.sanitize <$> members.*1) →
  result (main.extract_zip unzip fs archive_path)
  = inr (main.extract_path_of archive_path) →
  (∀ name node, (name, node) ∈ members →
     disk (main.extract_zip unzip fs archive_path)
       !! (main.extract_path_of archive_path ++ zipfile.sanitize name)
     = Some node)
  ∧ (∀ q node, fs !! q = Some node →
               pathlib.is_under (main.extract_path_of archive_path) q = false →
               disk (main.extract_zip unzip fs archive_path) !! q = Some node).
Proof.
  intros Hz Hex Hnd Hres. split.
  - intros name node Hm. unfold main.extract_zip in *. rewrite Hex, Hz in *.
    destruct (zipfile.extractall fs _ members) as [fs' r] eqn:Hx. simpl in *.
    destruct r as [e|[]]; [done|].
    apply (extractall_delivers _ _ _ _ Hx Hnd (name, node) Hm).
  - intros q node. apply extract_zip_outside.
Qed.

Lemma extract_zip_delivers_members_witness :
  (∀ name node,
     (name, node) ∈ [([lit "index.html"],
                      File (lit "<img src='images/game.png'>"));
                     ([lit "images"; lit "game.png"], Blob PNG)] →
     disk (main.extract_zip demo_unzip
             {[ [lit "game.zip"] := File (lit "PK-game") ]} [lit "game.zip"])
       !! (main.extract_path_of [lit "game.zip"] ++ zipfile.sanitize name)
     = Some node)
  ∧ (∀ q node,
       ({[ [lit "game.zip"] := File (lit "PK-game") ]} : FS) !! q = Some node →
       pathlib.is_under (main.extract_path_of [lit "game.zip"]) q = false →
       disk (main.extract_zip demo_unzip
               {[ [lit "game.zip"] := File (lit "PK-game") ]} [lit "game.zip"])
         !! q = Some node).
Proof.
  apply (extract_zip_delivers_members demo_unzip _ _).
  - by vm_compute.
  - by vm_compute.
  - apply (bool_decide_unpack (NoDup _)). by vm_compute.
  - by vm_compute.
Defined.

(** Names that climb or start at the root are extracted below the
    extraction directory all the same, and a directory entry makes a
    directory. *)
Example extraction_cleans_names :
  let after :=
    zipfile.extractall ∅ [lit "game"]
      [([lit ".."; lit ".."; lit "etc"; lit "motd"], File (lit "hello"));
       ([lit ""; lit "abs.txt"], File (lit "a"));
       ([lit "sounds"], Dir)] in
  after.2 = inr ()
  ∧ after.1 !! [lit "game"; lit "etc"; lit "motd"] = Some (File (lit "hello"))
  ∧ after.1 !! [lit "game"; lit "etc"] = Some Dir
  ∧ after.1 !! [lit "game"; lit "abs.txt"] = Some (File (lit "a"))
  ∧ after.1 !! [lit "game"; lit "sounds"] = Some Dir
  ∧ after.1 !! [lit "etc"; lit "motd"] = None
  ∧ after.1 !! [lit "abs.txt"] = None.
Proof. by vm_compute. Qed.

(** X8: an archive whose name has no suffix is its own extraction
    directory: [extract_zip] finds it existing, extracts nothing and
    returns the path of the archive itself; and [main], finding no file
    below an archive that is a file, ends normally without having done
    anything. *)
Theorem archive_without_suffix (unzip : str → option zipfile.archive)
    (rnd : nat → nat) (fs : FS) (archive_path : Path) (node : fsnode) :
  archive_path ≠ [] →
  pathlib.suffix archive_path = [] →
  fs !! archive_path = Some node →
  main.extract_zip unzip fs archive_path = Outcome fs [] (inr archive_path)
  ∧ ((∀ q, pathlib.is_under archive_path q = true → fs !! q = None) →
     main.main unzip rnd fs archive_path = Outcome fs [] (inr ())).
Proof.
  intros Hne Hsfx Hf.
  assert (main.extract_path_of archive_path = archive_path) as Hself.
  { unfold main.extract_path_of, pathlib.joinpath.
    replace (pathlib.stem archive_path) with (pathlib.name archive_path).
    - by apply parent_name.
    - rewrite (name_stem_suffix archive_path), Hsfx. by rewrite app_nil_r. }
  assert (os.path_exists fs archive_path = true) as Hex
    by (apply bool_decide_eq_true; by rewrite Hf).
  assert (main.extract_zip unzip fs archive_path
          = Outcome fs [] (inr archive_path)) as Hx
    by (unfold main.extract_zip; by rewrite Hself, Hex).
  split; [done|]. intros Hnone. unfold main.main. rewrite Hex, Hx.
  cbn [negb result disk trace].
  apply process_patterns_no_assets. intros ext.
  by apply rglob_nothing_below.
Qed.

Lemma archive_without_suffix_witness :
  main.extract_zip demo_unzip {[ [lit "game"] := File (lit "PK-game") ]}
                   [lit "game"]
  = Outcome {[ [lit "game"] := File (lit "PK-game") ]} [] (inr [lit "game"])
  ∧ ((∀ q, pathlib.is_under [lit "game"] q = true →
           ({[ [lit "game"] := File (lit "PK-game") ]} : FS) !! q = None) →
     main.main demo_unzip (λ i, 7 * i)
               {[ [lit "game"] := File (lit "PK-game") ]} [lit "game"]
     = Outcome {[ [lit "game"] := File (lit "PK-game") ]} [] (inr ())).
Proof.
  apply (archive_without_suffix _ _ _ _ (File (lit "PK-game"))).
  - done.
  - reflexivity.
  - apply lookup_singleton_eq.
Defined.



(** X10: the archive itself is left as it is by every run. *)
Theorem main_keeps_archive (unzip : str → option zipfile.archive)
    (rnd : nat → nat) (fs : FS) (archive_path : Path) :
  disk (main.main unzip rnd fs archive_path) !! archive_path
  = fs !! archive_path.
Proof.
  destruct (fs !! archive_path) as [node|] eqn:Hf.
  - apply main_outside; [done | apply archive_outside].
  - unfold main.main, os.path_exists. by rewrite Hf.
Qed.

(* ===================================================================== *)
(** * The logging package: levels and colours *)
(* ===================================================================== *)

Section LevelFacts.

Local Open Scope Z_scope.

Implicit Types (environ : gmap str str) (caller v : str) (n : Z)
  (l d : logging.level_arg).

(** The table of level names, read backwards and forwards. *)
Lemma nameToLevel_cases v n :
  logging._nameToLevel !! v = Some n →
  (v, n) ∈ [(lit "CRITICAL", 50); (lit "FATAL", 50); (lit "ERROR", 40);
            (lit "WARN", 30); (lit "WARNING", 30); (lit "INFO", 20);
            (lit "DEBUG", 10); (lit "NOTSET", 0)].
Proof. intros H. by apply elem_of_list_to_map_2 in H. Qed.

Lemma nameToLevel_zero v :
  logging._nameToLevel !! v = Some 0 → v = lit "NOTSET".
Proof.
  intros H. apply nameToLevel_cases in H.
  repeat (apply elem_of_cons in H as [H|H]; [by injection H|]).
  by apply elem_of_nil in H.
Qed.

Lemma level_colour_cases n :
  is_Some (colored_logging.__LEVEL_COLORS__ !! n) ↔ n ∈ [50; 40; 30; 20; 10; 0].
Proof.
  unfold colored_logging.__LEVEL_COLORS__. split.
  - intros [c H]. apply elem_of_list_to_map_2 in H.
    repeat (apply elem_of_cons in H as [H|H];
            [injection H as -> _; by apply (bool_decide_unpack _)|]).
    by apply elem_of_nil in H.
  - intros H.
    repeat (apply elem_of_cons in H as [->|H]; [eexists; by vm_compute|]).
    by apply elem_of_nil in H.
Qed.

Lemma if_not_None l : logging.if_not None l = l.
Proof. done. Qed.

Lemma if_not_truthy l d :
  logging.truthy l = true → logging.if_not (Some l) d = l.
Proof. intros H. unfold logging.if_not. by rewrite H. Qed.

Lemma if_not_falsy l d :
  logging.truthy l = false → logging.if_not (Some l) d = d.
Proof. intros H. unfold logging.if_not. by rewrite H. Qed.

(** The logger built from a level that is true for Python. *)
Lemma ColoredLogger_truthy caller l :
  logging.truthy l = true →
  logging.ColoredLogger caller (Some l)
  = (rv ← logging._checkLevel l; mret (logging.mkLogger caller rv)).
Proof. intros H. unfold logging.ColoredLogger, logging.if_not. by rewrite H. Qed.

Lemma ColoredLogger_falsy caller l :
  logging.truthy l = false →
  logging.ColoredLogger caller (Some l)
  = inr (logging.mkLogger caller logging.INFO).
Proof. intros H. unfold logging.ColoredLogger, logging.if_not. by rewrite H. Qed.

End LevelFacts.

(** X11: a level that is false for Python -- the integer 0, the empty
    name, or none -- never reaches the logger: [getLogger] puts the
    default in its place.  So when [getLogger] returns a logger whose level
    is NOTSET, the level was asked for by the name [NOTSET], in the call or,
    the call giving no true level, in [LOGGING_LEVEL]. *)
Theorem getLogger_notset_only_by_name (environ : gmap str str) (caller : str)
    (name : option str) (level : option logging.level_arg)
    (logger : logging.Logger) :
  logging.getLogger environ caller name level = inr logger →
  logging.level logger = 0%Z →
  level = Some (logging.LevelName (lit "NOTSET"))
  ∨ (match level with
     | Some l => logging.truthy l = false
     | None => True
     end
     ∧ environ !! lit "LOGGING_LEVEL" = Some (lit "NOTSET")).
Proof.
  unfold logging.getLogger. intros Hget Hzero.
  set (nm := match name with
             | Some n => if bool_decide (n = []) then caller else n
             | None => caller
             end) in *. clearbody nm.
  assert (∀ l, logging.truthy l = true →
               logging.ColoredLogger nm (Some l) = inr logger →
               l = logging.LevelName (lit "NOTSET")) as Htrue.
  { intros l Ht Hc. rewrite (ColoredLogger_truthy _ _ Ht) in Hc.
    destruct l as [n|v]; simpl in Hc.
    - injection Hc as <-. simpl in Hzero, Ht. subst n. done.
    - destruct (logging._nameToLevel !! v) as [n|] eqn:E; [|done].
      simpl in Hc. injection Hc as <-. simpl in Hzero. subst n.
      by rewrite (nameToLevel_zero _ E). }
  assert (logging.ColoredLogger nm (Some (logging.__default_level__ environ))
          = inr logger →
          environ !! lit "LOGGING_LEVEL" = Some (lit "NOTSET")) as Hdefault.
  { unfold logging.__default_level__.
    destruct (environ !! lit "LOGGING_LEVEL") as [v|]; intros Hc.
    - destruct (logging.truthy (logging.LevelName v)) eqn:Ht.
      + apply Htrue in Hc; [|done]. by injection Hc as ->.
      + rewrite (ColoredLogger_falsy _ _ Ht) in Hc. injection Hc as <-.
        discriminate.
    - rewrite ColoredLogger_truthy in Hc by done. injection Hc as <-.
      discriminate. }
  destruct level as [l|]; simpl in Hget.
  - destruct (logging.truthy l) eqn:Ht.
    + left. f_equal. by apply Htrue.
    + right. split; [done|]. by apply Hdefault.
  - right. split; [done|]. by apply Hdefault.
Qed.

Lemma getLogger_notset_only_by_name_witness :
  (None : option logging.level_arg) = Some (logging.LevelName (lit "NOTSET"))
  ∨ (True ∧ ({[ lit "LOGGING_LEVEL" := lit "NOTSET" ]} : gmap str str)
              !! lit "LOGGING_LEVEL" = Some (lit "NOTSET")).
Proof.
  apply (getLogger_notset_only_by_name
           {[ lit "LOGGING_LEVEL" := lit "NOTSET" ]} (lit "__main__") None None
           (logging.mkLogger (lit "__main__") logging.NOTSET));
    by vm_compute.
Defined.

(** X12: the package's [setLevel] decides the level of the loggers that
    [getLogger()] builds afterwards, whatever the environment held: a level
    that is false for Python gives INFO, a recognized name or an integer
    gives that level, and an unrecognized name is accepted by [setLevel]
    and makes every later [getLogger()] raise [ValueError], while a call
    of [getLogger] with a true level of its own is not affected.  The
    package's initial state is the one of the environment. *)
Theorem setLevel_then_getLogger (caller : str) (level : option logging.level_arg) :
  (match level with
   | Some l => logging.truthy l = false
   | None => True
   end →
   construct_cache_fixer.getLogger (construct_cache_fixer.setLevel level)
                                   caller None None
   = inr (logging.mkLogger caller logging.INFO))
  ∧ (∀ l, level = Some l → logging.truthy l = true →
          construct_cache_fixer.getLogger (construct_cache_fixer.setLevel level)
                                          caller None None
          = (rv ← logging._checkLevel l; mret (logging.mkLogger caller rv)))
  ∧ (∀ v, level = Some (logging.LevelName v) → v ≠ [] →
          logging._nameToLevel !! v = None →
          (∃ message,
             construct_cache_fixer.getLogger
               (construct_cache_fixer.setLevel level) caller None None
             = inl (ValueError message))
          ∧ ∀ n, n ≠ 0%Z →
                 construct_cache_fixer.getLogger
                   (construct_cache_fixer.setLevel level) caller None
                   (Some (logging.LevelInt n))
                 = inr (logging.mkLogger caller n))
  ∧ (∀ environ name level',
       logging.getLogger environ caller name level'
       = construct_cache_fixer.getLogger (logging.__default_level__ environ)
                                         caller name level').
Proof.
  unfold construct_cache_fixer.getLogger, construct_cache_fixer.setLevel.
  split; [|split; [|split; [|done]]].
  - intros Hfalse. rewrite if_not_None.
    destruct level as [l|]; [rewrite (if_not_falsy _ _ Hfalse)|rewrite if_not_None];
      reflexivity.
  - intros l -> Ht. rewrite if_not_None, (if_not_truthy _ _ Ht).
    by apply ColoredLogger_truthy.
  - intros v -> Hne Hunknown.
    assert (logging.truthy (logging.LevelName v) = true) as Ht
      by (simpl; by rewrite bool_decide_eq_false_2).
    rewrite (if_not_truthy _ _ Ht). split.
    + eexists. rewrite if_not_None, (ColoredLogger_truthy _ _ Ht).
      simpl. by rewrite Hunknown.
    + intros n Hn.
      assert (logging.truthy (logging.LevelInt n) = true) as Htn
        by (simpl; apply negb_true_iff; by apply Z.eqb_neq).
      by rewrite (if_not_truthy _ _ Htn), (ColoredLogger_truthy _ _ Htn).
Qed.

Lemma setLevel_then_getLogger_witness :
  construct_cache_fixer.getLogger
    (construct_cache_fixer.setLevel (Some (logging.LevelInt 0)))
    (lit "__main__") None None
  = inr (logging.mkLogger (lit "__main__") logging.INFO).
Proof.
  apply (proj1 (setLevel_then_getLogger (lit "__main__")
                  (Some (logging.LevelInt 0)))).
  reflexivity.
Defined.

(** X13: the formatter has a colour for each of the six standard levels,
    so for every level that a level name stands for and for the severities
    DEBUG, INFO and WARNING that the core logs with; for any other level
    number the lookup of the colour fails and raises [KeyError].  Off
    Windows the level name of the record becomes the old name between the
    escape sequence of the colour and the reset sequence; on Windows the
    record is left as it is. *)
Theorem format_colours_standard_levels :
  (∀ name n, logging._nameToLevel !! name = Some n →
             is_Some (colored_logging.__LEVEL_COLORS__ !! n))
  ∧ (∀ windows record,
       is_Some (colored_logging.format windows record)
       ↔ colored_logging.levelno record ∈ [50; 40; 30; 20; 10; 0]%Z)
  ∧ (∀ record record',
       colored_logging.format false record = Some record' →
       colored_logging.levelno record' = colored_logging.levelno record
       ∧ ∃ colour,
           colored_logging.__LEVEL_COLORS__ !! colored_logging.levelno record
           = Some colour
           ∧ colored_logging.levelname record'
             = ["027"%char] ++ lit "[" ++ colour ++ lit "m"
               ++ colored_logging.levelname record
               ++ ["027"%char] ++ lit "[0m")
  ∧ (∀ record record',
       colored_logging.format true record = Some record' → record' = record).
Proof.
  split; [|split; [|split]].
  - intros name n H. apply level_colour_cases.
    apply nameToLevel_cases in H.
    repeat (apply elem_of_cons in H as [H|H];
            [injection H as _ ->; by apply (bool_decide_unpack _)|]).
    by apply elem_of_nil in H.
  - intros windows record. rewrite <- level_colour_cases.
    unfold colored_logging.format.
    destruct (colored_logging.__LEVEL_COLORS__ !! _) as [c|]; simpl.
    + split; eauto.
    + split; intros [? ?]; done.
  - intros record record'. unfold colored_logging.format.
    destruct (colored_logging.__LEVEL_COLORS__ !! _) as [c|] eqn:E; [|done].
    simpl. intros [= <-]. split; [done|]. exists c. split; [done|].
    simpl.
    assert (c ≠ []) as Hc.
    { intros ->. apply elem_of_list_to_map_2 in E.
      repeat (apply elem_of_cons in E as [E|E]; [by injection E|]).
      by apply elem_of_nil in E. }
    unfold tty.pretty, tty.given. destruct c as [|a c]; [done|].
    reflexivity.
  - intros record record'. unfold colored_logging.format.
    destruct (colored_logging.__LEVEL_COLORS__ !! _) as [c|]; [|done].
    simpl. intros [= <-]. by destruct record.
Qed.

Example format_warning :
  colored_logging.format false (colored_logging.mkLogRecord 30 (lit "WARNING"))
  = Some (colored_logging.mkLogRecord 30
            (["027"%char] ++ lit "[33mWARNING" ++ ["027"%char] ++ lit "[0m")).
Proof. by vm_compute. Qed.

Example format_custom_level :
  colored_logging.format false (colored_logging.mkLogRecord 25 (lit "Level 25"))
  = None.
Proof. by vm_compute. Qed.

(* ===================================================================== *)
(** * What a run does, event by event *)
(* ===================================================================== *)

Section TraceFacts.

Implicit Types (fs : FS) (asset root : Path) (rnd : nat → nat)
  (tr : list event).




End TraceFacts.


(* ===================================================================== *)
(** * The model at work *)
(* ===================================================================== *)

Example escape_ex : re.escape (lit "x.png") = lit "x\.png".
Proof. reflexivity. Qed.

Example compile_ex :
  re.compile (lit "\W" ++ re.escape (lit "a.b") ++ lit "\W")
  = Some [re.NOT_WORD; re.LITERAL "a"; re.LITERAL "."; re.LITERAL "b"; re.NOT_WORD].
Proof. reflexivity. Qed.

Example readlines_ex :
  readlines (lit "ab" ++ ["010"%char] ++ lit "cd") = [lit "ab" ++ ["010"%char]; lit "cd"].
Proof. reflexivity. Qed.

Example replace_ex1 : str_replace (lit "aaa") (lit "aa") (lit "b") = lit "ba".
Proof. reflexivity. Qed.

Example replace_ex2 : str_replace (lit "abc") [] (lit "-") = lit "-a-b-c-".
Proof. reflexivity. Qed.

(** The loop body on [x.png] of the small game. *)
Example round_trip_run :
  trace (main.process_asset (λ i, 7 * i) [lit "game"]
           [lit "game"; lit "images"; lit "x.png"] demo_disk)
  = [EvWrite [lit "game"; lit "a.html"];
     EvRename [lit "game"; lit "images"; lit "x.png"]
              [lit "game"; lit "images"; lit "x_ahovCJQX.png"]]
  ∧ disk (main.process_asset (λ i, 7 * i) [lit "game"]
            [lit "game"; lit "images"; lit "x.png"] demo_disk)
      !! [lit "game"; lit "a.html"]
    = Some (File (lit "<img src='x_ahovCJQX.png'>")).
Proof. vm_compute. by split. Qed.

(** The whole of [main] on the archive with a page and its image: the
    archive is expanded, the page is rewritten, the image is renamed. *)
Example end_to_end :
  trace (main.main demo_unzip (λ i, 7 * i)
           {[ [lit "game.zip"] := File (lit "PK-game") ]} [lit "game.zip"])
  = [EvExtractAll [lit "game.zip"] [lit "game"];
     EvWrite [lit "game"; lit "index.html"];
     EvRename [lit "game"; lit "images"; lit "game.png"]
              [lit "game"; lit "images"; lit "game_ahovCJQX.png"]]
  ∧ result (main.main demo_unzip (λ i, 7 * i)
              {[ [lit "game.zip"] := File (lit "PK-game") ]} [lit "game.zip"])
    = inr ()
  ∧ disk (main.main demo_unzip (λ i, 7 * i)
            {[ [lit "game.zip"] := File (lit "PK-game") ]} [lit "game.zip"])
      !! [lit "game"; lit "index.html"]
    = Some (File (lit "<img src='images/game_ahovCJQX.png'>"))
  ∧ disk (main.main demo_unzip (λ i, 7 * i)
            {[ [lit "game.zip"] := File (lit "PK-game") ]} [lit "game.zip"])
      !! [lit "game"; lit "images"; lit "game.png"]
    = None.
Proof. vm_compute. by repeat split. Qed.

